(** * pynake: the game-state machine of [snake.py]

    A shallow embedding of the game logic of [snake.py] (class [Snake]:
    [reset], [update], [update_direction], [update_snake], [check_apple],
    [generate_apple], [check_death], [death_event]) and the properties of
    the per-tick transition.

    Modelling choices, all read off the source:
    - a [Point] is the named tuple of two Python integers (unbounded: [Z]);
    - the four direction constants are four distinct objects; the field
      [direction] holds a reference to one of them, and [update_direction]
      compares references ([is not]), so a reference carries an address
      next to its value;
    - the deque [self.snake] is a list, head first; [appendleft] is cons,
      [pop] removes the last element, [append] adds at the end;
    - [set(self.snake)] is a [gset Point];
    - [self.popped_point] is not assigned by [reset]: it is an optional
      field, and reading it while unset raises [AttributeError];
    - the keys polled through [pyxel.btn] / [pyxel.btnp] are the booleans of
      a record [Keys], one record per tick;
    - [random.randint] reads from a tape of raw draws; a run that asks for
      more draws than the tape holds has not left the sampling loop and is
      reported as [Diverge];
    - [pyxel.quit()] ends the process: the rest of [update] is not run;
    - the calls to [self.music] only play or stop sounds and touch no field
      of the game; they are left out of [update] and its steps, and the game
      with its sound is given apart ([update_snd], on a state paired with
      the channels), with the proof that it is the same game;
    - the drawing methods return the list of the calls they make to
      [pyxel.rect], [pyxel.text] and [pyxel.cls], in order;
      [pyxel.FONT_WIDTH] (4 in pyxel) is a parameter too.
    - [pyxel.FONT_HEIGHT] is a constant of the pyxel library (6 in pyxel);
      it is a parameter of the development. *)

From stdpp Require Import base decidable countable gmap sets list strings pretty.
From Stdlib Require Import ZArith Lia.

#[local] Open Scope Z_scope.

(** ** Points and references *)

Record Point : Type := mkPoint { x : Z; y : Z }.

#[global] Instance Point_eq_dec : EqDecision Point.
Proof. solve_decision. Defined.

#[global] Instance Point_countable : Countable Point :=
  inj_countable' (λ p : Point, (x p, y p)) (λ q : Z * Z, mkPoint q.1 q.2)
                 (λ p, match p with mkPoint _ _ => eq_refl end).

(** A reference to a [Point] object: where it lives and what it holds.
    [a is b] compares addresses, [a == b] compares values. *)
Record Ref : Type := mkRef { addr : nat; val : Point }.

#[global] Instance Ref_eq_dec : EqDecision Ref.
Proof. solve_decision. Defined.

Definition is_ (a b : Ref) : bool := bool_decide (addr a = addr b).
Definition eq_ (a b : Ref) : bool := bool_decide (val a = val b).

(** ** Exceptions, outcomes and the tape of random draws *)

Inductive exn : Type := IndexError | AttributeError | ValueError.

Inductive outcome (A : Type) : Type :=
| Ok (a : A) (tape : list Z)
| Raise (e : exn)
| Quit
| Diverge.

Arguments Ok {A} a tape.
Arguments Raise {A} e.
Arguments Quit {A}.
Arguments Diverge {A}.

Definition M (A : Type) : Type := list Z → outcome A.

Definition ret {A} (a : A) : M A := λ tape, Ok a tape.

Definition bind {A B} (m : M A) (k : A → M B) : M B := λ tape,
  match m tape with
  | Ok a tape' => k a tape'
  | Raise e => Raise e
  | Quit => Quit
  | Diverge => Diverge
  end.

Definition raise {A} (e : exn) : M A := λ _, Raise e.

Notation "'do' v <~ m ; k" := (bind m (λ v, k))
  (at level 10, v name, m at level 100, k at level 200).

(** [pyxel.quit()] *)
Definition quit : M unit := λ _, Quit.

(** The value [randint a b] makes of the raw draw [r] when [a <= b]. *)
Definition pick (a b r : Z) : Z := a + r mod (b - a + 1).

(** ** Keys *)

Record Keys : Type := mkKeys {
  btn_UP : bool;  btn_DOWN : bool;  btn_LEFT : bool;  btn_RIGHT : bool;
  btn_Q : bool;   btnp_R : bool;    btnp_T : bool
}.

(** [self.snake.pop()] *)
Definition pop (dq : list Point) : option (list Point * Point) :=
  match reverse dq with
  | [] => None
  | p :: r => Some (reverse r, p)
  end.

(** ** The game *)

Record Snake : Type := mkSnake {
  direction : Ref;
  snake : list Point;
  death : bool;
  score : Z;
  apple : Point;
  popped_point : option Point
}.

Definition set_direction (d : Ref) (s : Snake) : Snake :=
  mkSnake d (snake s) (death s) (score s) (apple s) (popped_point s).
Definition set_snake (l : list Point) (s : Snake) : Snake :=
  mkSnake (direction s) l (death s) (score s) (apple s) (popped_point s).
Definition set_death (b : bool) (s : Snake) : Snake :=
  mkSnake (direction s) (snake s) b (score s) (apple s) (popped_point s).
Definition set_score (n : Z) (s : Snake) : Snake :=
  mkSnake (direction s) (snake s) (death s) n (apple s) (popped_point s).
Definition set_apple (a : Point) (s : Snake) : Snake :=
  mkSnake (direction s) (snake s) (death s) (score s) a (popped_point s).
Definition set_popped_point (p : Point) (s : Snake) : Snake :=
  mkSnake (direction s) (snake s) (death s) (score s) (apple s) (Some p).

Definition WIDTH : Z := 40.
Definition HEIGHT : Z := 50.

Definition UP : Ref := mkRef 0 (mkPoint 0 (-1)).
Definition DOWN : Ref := mkRef 1 (mkPoint 0 1).
Definition RIGHT : Ref := mkRef 2 (mkPoint 1 0).
Definition LEFT : Ref := mkRef 3 (mkPoint (-1) 0).

Section Game.

Variable FONT_HEIGHT : Z.

Definition HEIGHT_SCORE : Z := FONT_HEIGHT.

Definition START : Point := mkPoint 5 (5 + HEIGHT_SCORE).

(** The loop of [generate_apple]:
    [while self.apple in snake_pixels: x = randint(..); y = randint(..)].
    [randint(0, WIDTH - 1)] has a non-empty range; [randint(HEIGHT_SCORE + 1,
    HEIGHT - 1)] raises [ValueError] when its range is empty. *)
Fixpoint apple_loop (snake_pixels : gset Point) (a : Point) (tape : list Z)
  : outcome Point :=
  if decide (a ∈ snake_pixels) then
    match tape with
    | [] => Diverge
    | rx :: tape1 =>
        if HEIGHT - 1 <? HEIGHT_SCORE + 1 then Raise ValueError else
        match tape1 with
        | [] => Diverge
        | ry :: tape2 =>
            apple_loop snake_pixels
              (mkPoint (pick 0 (WIDTH - 1) rx)
                       (pick (HEIGHT_SCORE + 1) (HEIGHT - 1) ry))
              tape2
        end
    end
  else Ok a tape.

Definition generate_apple (s : Snake) : M Snake :=
  match snake s with
  | [] => raise IndexError
  | head :: _ =>
      do a <~ apple_loop (list_to_set (snake s)) head ;
      ret (set_apple a s)
  end.

Definition reset (s : Snake) : M Snake :=
  generate_apple (mkSnake RIGHT [START] false 0 (apple s) (popped_point s)).

(** [Snake.__init__]: a new object, on which [reset] runs. No field is set
    before [reset]; [generate_apple] assigns [apple] before anything reads
    it, so the value the field is created with here is never seen. *)
Definition Snake_init : M Snake :=
  reset (mkSnake RIGHT [] false 0 START None).

Definition update_direction (k : Keys) (s : Snake) : Snake :=
  if btn_UP k && negb (is_ (direction s) DOWN) then set_direction UP s
  else if btn_DOWN k && negb (is_ (direction s) UP) then set_direction DOWN s
  else if btn_LEFT k && negb (is_ (direction s) RIGHT) then set_direction LEFT s
  else if btn_RIGHT k && negb (is_ (direction s) LEFT) then set_direction RIGHT s
  else s.

Definition update_snake (s : Snake) : M Snake :=
  match snake s with
  | [] => raise IndexError
  | old_head :: _ =>
      let new_head := mkPoint (x old_head + x (val (direction s)))
                              (y old_head + y (val (direction s))) in
      match pop (new_head :: snake s) with
      | None => raise IndexError
      | Some (dq, p) => ret (set_popped_point p (set_snake dq s))
      end
  end.

Definition death_event (s : Snake) : Snake := set_death true s.

Definition check_death (s : Snake) : M Snake :=
  match snake s with
  | [] => raise IndexError
  | head :: _ =>
      if (x head <? 0) || (y head <=? HEIGHT_SCORE)
         || (x head >=? WIDTH) || (y head >=? HEIGHT)
      then ret (death_event s)
      else if negb (length (snake s)
                    =? size (list_to_set (snake s) : gset Point))%nat
      then ret (death_event s)
      else ret s
  end.

Definition check_apple (s : Snake) : M Snake :=
  match snake s with
  | [] => raise IndexError
  | head :: _ =>
      if bool_decide (head = apple s) then
        match popped_point s with
        | None => raise AttributeError
        | Some p =>
            generate_apple (set_snake (snake s ++ [p])
                              (set_score (score s + 1) s))
        end
      else ret s
  end.

(** The four calls made by [update] while [not self.death]. *)
Definition alive_steps (k : Keys) (s : Snake) : M Snake :=
  do s1 <~ update_snake (update_direction k s) ;
  do s2 <~ check_death s1 ;
  check_apple s2.

(** The handler of [KEY_T]. *)
Definition debug_growth (s : Snake) : M Snake :=
  match popped_point s with
  | None => raise AttributeError
  | Some p => ret (set_score (score s + 1) (set_snake (snake s ++ [p]) s))
  end.

Definition update (k : Keys) (s : Snake) : M Snake :=
  do s1 <~ (if negb (death s) then alive_steps k s else ret s) ;
  do u <~ (if btn_Q k then quit else ret tt) ;
  do s2 <~ (if btnp_R k then reset s1 else ret s1) ;
  if btnp_T k then debug_growth s2 else ret s2.

End Game.

Definition nokeys : Keys := mkKeys false false false false false false false.

(** [p + d], the cell next to [p] in direction [d]. *)
Definition move (p : Point) (d : Ref) : Point :=
  mkPoint (x p + x (val d)) (y p + y (val d)).

(** The head is outside the playable rectangle. *)
Definition out_of_bounds (fh : Z) (p : Point) : Prop :=
  x p < 0 ∨ x p >= WIDTH ∨ y p <= HEIGHT_SCORE fh ∨ y p >= HEIGHT.

Definition in_playable (fh : Z) (p : Point) : Prop :=
  0 <= x p < WIDTH ∧ HEIGHT_SCORE fh < y p < HEIGHT.

(** Two positions of the body hold the same coordinate. *)
Definition contains_duplicate (l : list Point) : Prop :=
  ∃ (i j : nat) (c : Point), i ≠ j ∧ l !! i = Some c ∧ l !! j = Some c.

(** ** Runs and reachable states *)

(** Successive calls of [update], one per tick, as [pyxel.run] makes them. *)
Fixpoint run (fh : Z) (ks : list Keys) (s : Snake) : M Snake :=
  match ks with
  | [] => ret s
  | k :: ks' => do s' <~ update fh k s ; run fh ks' s'
  end.

(** The states of the game: the one [__init__] builds, and every state a
    call of [update] returns from one of them, whatever the keys and draws. *)
Inductive reachable (fh : Z) : Snake → Prop :=
| reachable_init tape s tape' :
    Snake_init fh tape = Ok s tape' → reachable fh s
| reachable_update k s tape s' tape' :
    reachable fh s → update fh k s tape = Ok s' tape' → reachable fh s'.

(** The same, through ticks on which [KEY_R] and [KEY_T] are not both
    pressed. *)
Inductive reachable_apart (fh : Z) : Snake → Prop :=
| reachable_apart_init tape s tape' :
    Snake_init fh tape = Ok s tape' → reachable_apart fh s
| reachable_apart_update k s tape s' tape' :
    reachable_apart fh s → btnp_R k && btnp_T k = false →
    update fh k s tape = Ok s' tape' → reachable_apart fh s'.

(** Number of ticks of [ks] on which [KEY_T] is pressed. *)
Definition presses (ks : list Keys) : nat :=
  length (filter (λ k, btnp_T k = true) ks).

(** ** The direction update, restated *)

(** [update_direction] with [!=] in place of [is not]: the comparison by
    value of the design notes. *)
Definition update_direction_eq (k : Keys) (s : Snake) : Snake :=
  if btn_UP k && negb (eq_ (direction s) DOWN) then set_direction UP s
  else if btn_DOWN k && negb (eq_ (direction s) UP) then set_direction DOWN s
  else if btn_LEFT k && negb (eq_ (direction s) RIGHT) then set_direction LEFT s
  else if btn_RIGHT k && negb (eq_ (direction s) LEFT) then set_direction RIGHT s
  else s.

Definition directions : list Ref := [UP; DOWN; LEFT; RIGHT].

(** The opposite of a unit vector. *)
Definition opposite (p : Point) : Point := mkPoint (- x p) (- y p).

(** The directions whose key is held, in the order Up, Down, Left, Right. *)
Definition requested (k : Keys) : list Ref :=
  (if btn_UP k then [UP] else []) ++ (if btn_DOWN k then [DOWN] else [])
  ++ (if btn_LEFT k then [LEFT] else []) ++ (if btn_RIGHT k then [RIGHT] else []).

(** The first requested direction that is not the opposite of [cur]. *)
Definition accepted (cur : Ref) (k : Keys) : option Ref :=
  head (filter (λ d, val d ≠ opposite (val cur)) (requested k)).

(** ** Eating *)

(** The cell the head moves to on a tick with keys [k]. *)
Definition new_head (k : Keys) (s : Snake) : option Point :=
  (λ h, move h (direction (update_direction k s))) <$> head (snake s).

(** The head moves onto the apple: the test of [check_apple] succeeds. *)
Definition eats (k : Keys) (s : Snake) : bool :=
  bool_decide (new_head k s = Some (apple s)).

(** The same states, through ticks that start alive only. *)
Inductive reachable_alive (fh : Z) : Snake → Prop :=
| reachable_alive_init tape s tape' :
    Snake_init fh tape = Ok s tape' → reachable_alive fh s
| reachable_alive_update k s tape s' tape' :
    reachable_alive fh s → death s = false →
    update fh k s tape = Ok s' tape' → reachable_alive fh s'.

(** ** Concrete keys and states, with pyxel's font height *)

Definition pyxel_FONT_HEIGHT : Z := 6.

Definition key_up : Keys := mkKeys true false false false false false false.
Definition key_T : Keys := mkKeys false false false false false false true.
Definition key_RT : Keys := mkKeys false false false false false true true.
Definition key_QR : Keys := mkKeys false false false false true true false.
Definition key_up_T : Keys := mkKeys true false false false false false true.
Definition key_up_R : Keys := mkKeys true false false false false true false.

(** The state [__init__] builds when the first two draws are 6 and 4: the
    snake at (5, 11), the apple at (6, 11), right in front of it. *)
Definition s_apple_ahead : Snake :=
  mkSnake RIGHT [mkPoint 5 11] false 0 (mkPoint 6 11) None.

(** The state [__init__] builds from the draws 30 and 30, and that state
    four ticks later with [KEY_UP] held: the head is one step under the
    score bar. *)
Definition s_far_apple : Snake :=
  mkSnake RIGHT [mkPoint 5 11] false 0 (mkPoint 30 37) None.
Definition s_under_bar : Snake :=
  mkSnake UP [mkPoint 5 7] false 0 (mkPoint 30 37) (Some (mkPoint 5 8)).
(** One more tick up: dead in the score bar. *)
Definition s_dead : Snake :=
  mkSnake UP [mkPoint 5 6] true 0 (mkPoint 30 37) (Some (mkPoint 5 7)).

(** [s_far_apple] one tick later with no key, and the state the next tick
    returns when [KEY_R] and [KEY_T] are pressed together and the draws are
    6 and 4: the new game holds the cell (6, 11) of the old one in its body,
    and its apple is on that cell. *)
Definition s_moved : Snake :=
  mkSnake RIGHT [mkPoint 6 11] false 0 (mkPoint 30 37) (Some (mkPoint 5 11)).
Definition s_stale : Snake :=
  mkSnake RIGHT [mkPoint 5 11; mkPoint 6 11] false 1 (mkPoint 6 11)
          (Some (mkPoint 6 11)).

(** A tick with [KEY_R] and [KEY_T] appends to the new game a cell of the
    body of the game it replaces. *)
Definition reappends_after_reset : Prop :=
  ∃ k s tape s' tape' p,
    reachable pyxel_FONT_HEIGHT s ∧ btnp_R k = true ∧ btnp_T k = true ∧
    update pyxel_FONT_HEIGHT k s tape = Ok s' tape' ∧
    p ∈ snake s ∧ snake s' = [START pyxel_FONT_HEIGHT; p].

(** A tick on a dead game appends the point popped on an earlier tick. *)
Definition reappends_while_dead : Prop :=
  ∃ k s tape s' tape' p,
    reachable pyxel_FONT_HEIGHT s ∧ death s = true ∧
    popped_point s = Some p ∧
    update pyxel_FONT_HEIGHT k s tape = Ok s' tape' ∧
    snake s' = snake s ++ [p].

(** A body with one cell three times over: [s_apple_ahead] after three
    ticks that each eat an apple, the first and the third with [KEY_T]. *)
Definition s_tripled : Snake :=
  mkSnake RIGHT
    [mkPoint 8 11; mkPoint 7 11; mkPoint 6 11;
     mkPoint 5 11; mkPoint 5 11; mkPoint 5 11]
    false 5 (mkPoint 9 11) (Some (mkPoint 5 11)).

(** ** Invariants *)

(** What holds of every reachable state. *)
Definition Inv (fh : Z) (s : Snake) : Prop :=
  snake s ≠ [] ∧
  in_playable fh (apple s) ∧
  (death s = true → is_Some (popped_point s)) ∧
  (death s = false → ∀ l0 p, snake s = l0 ++ [p] → apple s ∉ l0).

(** The apple is off the body, and a dead game does not hold the apple's
    coordinate as its popped point. *)
Definition apple_apart (s : Snake) : Prop :=
  (apple s ∉ snake s) ∧ (death s = true → popped_point s ≠ Some (apple s)).

(** ** Shapes of the body *)

(** The states reached through ticks on which [KEY_T] is never pressed. *)
Inductive reachable_plain (fh : Z) : Snake → Prop :=
| reachable_plain_init tape s tape' :
    Snake_init fh tape = Ok s tape' → reachable_plain fh s
| reachable_plain_update k s tape s' tape' :
    reachable_plain fh s → btnp_T k = false →
    update fh k s tape = Ok s' tape' → reachable_plain fh s'.

(** Two cells one step apart, along a row or a column. *)
Definition neighbours (a b : Point) : Prop :=
  Z.abs (x a - x b) + Z.abs (y a - y b) = 1.

(** Each cell of the body is a neighbour of the next one. *)
Definition chain (l : list Point) : Prop :=
  ∀ (i : nat) (a b : Point),
    l !! i = Some a → l !! S i = Some b → neighbours a b.

(** The second cell of the body is where the head came from: one step
    against the current direction. On a dead game of one cell the same holds
    of the popped point, which [KEY_T] would append. *)
Definition neck_behind (s : Snake) : Prop :=
  (∀ h n rest, snake s = h :: n :: rest → h = move n (direction s)) ∧
  (death s = true → ∀ h p, snake s = [h] → popped_point s = Some p →
                    h = move p (direction s)).

(** Every cell behind the head, the popped point, and for a living snake
    the head too, are in the playable rectangle. *)
Definition on_field (fh : Z) (s : Snake) : Prop :=
  (∀ c, c ∈ tail (snake s) → in_playable fh c) ∧
  (∀ p, popped_point s = Some p → in_playable fh p) ∧
  (death s = false → ∀ c, c ∈ snake s → in_playable fh c).

(** A body that covers the whole playable rectangle, for pyxel's font
    height: columns 0 to 39 of rows 7 to 49. *)
Definition full_board : list Point :=
  x ← seqZ 0 40; y ← seqZ 7 43; [mkPoint x y].
Definition s_full : Snake :=
  mkSnake RIGHT full_board false 0 (mkPoint 0 7) None.

(** ** Drawing *)

(** The calls a drawing method makes, in order: [pyxel.rect], [pyxel.text]
    and [pyxel.cls]. *)
Inductive draw_cmd : Type :=
| rect (px py w h col : Z)
| text (px py : Z) (s : string) (col : Z)
| cls (col : Z).

#[global] Instance draw_cmd_eq_dec : EqDecision draw_cmd.
Proof. solve_decision. Defined.

(** The colour numbers [Colors.__init__] stores in its attributes. *)
Record Colors : Type := mkColors {
  head_color : Z;  body_color : Z;  apple_color : Z;
  background1_color : Z;  background2_color : Z;
  score_color : Z;  score_color_fade : Z;  background_score_color : Z;
  death_text_color : Z;  death_text_color_fade : Z;  death_color : Z
}.

Definition Colors_init : Colors := mkColors 0 1 2 3 4 5 9 6 7 10 8.

Definition TEXT_DEATH : list string := ["GAME OVER"; "(Q)UIT"; "(R)ESTART"].
Definition HEIGHT_DEATH : Z := 5.

(** [s.zfill(w)] on a string of digits: zeros in front, up to width [w]. *)
Definition zfill (w : nat) (s : string) : string :=
  String.concat "" (replicate (w - String.length s) "0") +:+ s.

(** ["{:04}".format(n)]: decimal, filled with zeros after the sign up to
    four characters. *)
Definition format_04 (n : Z) : string :=
  if n <? 0 then "-" +:+ zfill 3 (pretty (Z.to_N (- n)))
  else zfill 4 (pretty (Z.to_N n)).

(** [Snake.center_text]. *)
Definition center_text (t : string) (page_width char_width : Z) : Z :=
  let text_width := Z.of_nat (String.length t) * char_width in
  (page_width - text_width) `div` 2.

Section Draw.

Variables (FONT_HEIGHT FONT_WIDTH : Z).
Variable col : Colors.

Definition draw_background : list draw_cmd :=
  cx ← seqZ 0 (WIDTH + 1);
  cy ← seqZ 0 (HEIGHT + 1);
  [rect cx cy 1 1 (if decide ((cx - cy) `mod` 2 = 0)
                   then background1_color col else background2_color col)].

Definition draw_snake (s : Snake) : list draw_cmd :=
  imap (λ i point,
          let colour := if decide (i = 0%nat) then head_color col
                        else body_color col in
          rect (x point) (y point) 1 1 colour)
       (snake s).

Definition draw_score (s : Snake) : list draw_cmd :=
  let score := format_04 (score s) in
  [rect 0 0 WIDTH (HEIGHT_SCORE FONT_HEIGHT + 1) (background_score_color col);
   text 1 1 score (score_color_fade col);
   text 0 1 score (score_color col)].

Definition draw_death (s : Snake) : list draw_cmd :=
  let display_text :=
    take 1 TEXT_DEATH ++ [format_04 (score s)] ++ drop 1 TEXT_DEATH in
  cls (death_color col) ::
  mjoin (imap (λ i t,
                 let y_offset := (FONT_HEIGHT + 2) * Z.of_nat i in
                 let text_x := center_text t WIDTH FONT_WIDTH in
                 [text (text_x + 1) (HEIGHT_DEATH + y_offset) t
                       (death_text_color_fade col);
                  text text_x (HEIGHT_DEATH + y_offset) t
                       (death_text_color col)])
              display_text).

Definition draw (s : Snake) : list draw_cmd :=
  if negb (death s) then
    draw_background ++ draw_snake s ++ draw_score s
    ++ [rect (x (apple s)) (y (apple s)) 1 1 (apple_color col)]
  else draw_death s.

(** The pixels a call can paint: the rectangle of [rect], the whole screen
    for [cls], and for [text] the box of one [FONT_WIDTH] by [FONT_HEIGHT]
    cell per character that [center_text] counts with. *)
Definition covers (c : draw_cmd) (p : Point) : bool :=
  match c with
  | rect px py w h _ =>
      bool_decide (px <= x p < px + w ∧ py <= y p < py + h)
  | text px py t _ =>
      bool_decide (px <= x p < px + Z.of_nat (String.length t) * FONT_WIDTH
                   ∧ py <= y p < py + FONT_HEIGHT)
  | cls _ => true
  end.

(** The last call of [cmds] that can paint [p]: what is seen there. *)
Definition top (cmds : list draw_cmd) (p : Point) : option draw_cmd :=
  last (filter (λ c, covers c p = true) cmds).

End Draw.

(** ** Sound *)

(** What each channel was last asked to do: play a sound, once or in a
    loop, or nothing (never used, or stopped). [pyxel.play] and
    [pyxel.stop] act on it. *)
Abbreviation channels := (gmap Z (Z * bool)).

Definition play (ch snd : Z) (loop : bool) (a : channels) : channels :=
  <[ch := (snd, loop)]> a.
Definition stop (ch : Z) (a : channels) : channels := delete ch a.

(** The methods of [Music] that play: [sfx_apple], [sfx_death],
    [start_music] and [stop_music]. *)
Definition sfx_apple (a : channels) : channels := play 0 0 false a.
Definition sfx_death (a : channels) : channels := play 0 1 false a.

Definition start_music (a : channels) : channels :=
  let music_tracks := [2; 3; 4] in
  foldl (λ a' '(ch, snd), play (Z.of_nat ch + 1) snd true a') a
        (imap pair music_tracks).

Definition stop_music (a : channels) : channels :=
  foldl (λ a' ch, stop ch a') a (seqZ 1 3).

(** The game with its sound: the methods of [Snake] that call
    [self.music], and their callers, on a state paired with the channels. *)
Section Sound.

Variable FONT_HEIGHT : Z.

Definition reset_snd (g : Snake * channels) : M (Snake * channels) :=
  do s <~ reset FONT_HEIGHT g.1 ;
  ret (s, start_music g.2).

Definition Snake_init_snd (a : channels) : M (Snake * channels) :=
  reset_snd (mkSnake RIGHT [] false 0 (START FONT_HEIGHT) None, a).

Definition death_event_snd (g : Snake * channels) : Snake * channels :=
  (set_death true g.1, stop_music (sfx_death g.2)).

Definition check_death_snd (g : Snake * channels) : M (Snake * channels) :=
  match snake g.1 with
  | [] => raise IndexError
  | head :: _ =>
      if (x head <? 0) || (y head <=? HEIGHT_SCORE FONT_HEIGHT)
         || (x head >=? WIDTH) || (y head >=? HEIGHT)
      then ret (death_event_snd g)
      else if negb (length (snake g.1)
                    =? size (list_to_set (snake g.1) : gset Point))%nat
      then ret (death_event_snd g)
      else ret g
  end.

Definition check_apple_snd (g : Snake * channels) : M (Snake * channels) :=
  match snake g.1 with
  | [] => raise IndexError
  | head :: _ =>
      if bool_decide (head = apple g.1) then
        let a := sfx_apple g.2 in
        match popped_point g.1 with
        | None => raise AttributeError
        | Some p =>
            do s <~ generate_apple FONT_HEIGHT
                      (set_snake (snake g.1 ++ [p])
                         (set_score (score g.1 + 1) g.1)) ;
            ret (s, a)
        end
      else ret g
  end.

Definition alive_steps_snd (k : Keys) (g : Snake * channels)
  : M (Snake * channels) :=
  do s1 <~ update_snake (update_direction k g.1) ;
  do g2 <~ check_death_snd (s1, g.2) ;
  check_apple_snd g2.

Definition update_snd (k : Keys) (g : Snake * channels)
  : M (Snake * channels) :=
  do g1 <~ (if negb (death g.1) then alive_steps_snd k g else ret g) ;
  do u <~ (if btn_Q k then quit else ret tt) ;
  do g2 <~ (if btnp_R k then reset_snd g1 else ret g1) ;
  if btnp_T k then (do s <~ debug_growth g2.1 ; ret (s, g2.2)) else ret g2.

End Sound.

(** The outcome of a run, its sound left out. *)
Definition silent {A B} (o : outcome (A * B)) : outcome A :=
  match o with
  | Ok g tape => Ok g.1 tape
  | Raise e => Raise e
  | Quit => Quit
  | Diverge => Diverge
  end.

(** The states of the game with its sound, from the channels [a0] the
    engine starts with. *)
Inductive reachable_snd (fh : Z) : Snake * channels → Prop :=
| reachable_snd_init a0 tape g tape' :
    Snake_init_snd fh a0 tape = Ok g tape' → reachable_snd fh g
| reachable_snd_update k g tape g' tape' :
    reachable_snd fh g → update_snd fh k g tape = Ok g' tape' →
    reachable_snd fh g'.

(** The music channels follow the death flag: channels 1, 2 and 3 loop
    the sounds 2, 3 and 4 while the game is alive and are silent when it is
    dead. *)
Definition music_follows (g : Snake * channels) : Prop :=
  ∀ ch, ch ∈ [1; 2; 3] →
        g.2 !! ch = if death g.1 then None else Some (ch + 1, true).

(** ** Basic facts *)

Lemma pop_snoc (l : list Point) (p : Point) : pop (l ++ [p]) = Some (l, p).
Proof.
  unfold pop. rewrite reverse_snoc. by rewrite reverse_involutive.
Qed.

Lemma snoc_of_cons (h : Point) (l : list Point) :
  ∃ l0 p, h :: l = l0 ++ [p].
Proof.
  revert h. induction l as [|a l IH]; intros h.
  - by exists [], h.
  - destruct (IH a) as (l0 & p & E). exists (h :: l0), p. by rewrite E.
Qed.

Lemma size_list_to_set_le (l : list Point) :
  (size (list_to_set l : gset Point) <= length l)%nat.
Proof.
  induction l as [|a l IH].
  - by rewrite list_to_set_nil, size_empty.
  - rewrite list_to_set_cons, size_union_alt, size_singleton.
    cbn [length].
    assert (size (list_to_set l ∖ {[a]} : gset Point)
            <= size (list_to_set l : gset Point))%nat
      by (apply subseteq_size; set_solver).
    lia.
Qed.

Lemma size_list_to_set_NoDup (l : list Point) :
  size (list_to_set l : gset Point) = length l ↔ NoDup l.
Proof.
  split; [|apply size_list_to_set].
  induction l as [|a l IH]; intros E; [constructor|].
  rewrite list_to_set_cons in E. cbn [length] in E.
  pose proof (size_list_to_set_le l) as Hle.
  destruct (decide (a ∈ l)) as [Hin|Hin].
  - assert (({[a]} ∪ list_to_set l : gset Point) = list_to_set l) as E'
      by set_solver.
    rewrite E' in E. lia.
  - rewrite size_union in E by set_solver.
    rewrite size_singleton in E.
    constructor; [done|]. apply IH. lia.
Qed.

Lemma contains_duplicate_NoDup (l : list Point) :
  contains_duplicate l ↔ ¬ NoDup l.
Proof.
  split.
  - intros (i & j & c & Hij & Hi & Hj) Hnd.
    apply Hij. eapply NoDup_lookup; eauto.
  - induction l as [|a l IH]; intros Hnd.
    + destruct Hnd. constructor.
    + destruct (decide (a ∈ l)) as [Hin|Hin].
      * apply list_elem_of_lookup in Hin as [j Hj].
        exists 0%nat, (S j), a. by repeat split.
      * destruct IH as (i & j & c & Hij & Hi & Hj).
        { intros H. apply Hnd. by constructor. }
        exists (S i), (S j), c. repeat split; [lia|done..].
Qed.

(** ** The steps of a tick, one by one *)

Lemma bind_Ok {A B} (m : M A) (f : A → M B) tape b tape' :
  bind m f tape = Ok b tape' ↔
  ∃ a tape1, m tape = Ok a tape1 ∧ f a tape1 = Ok b tape'.
Proof.
  unfold bind. destruct (m tape) as [a t1| | |]; split;
    try discriminate; try (intros (? & ? & ? & _); discriminate).
  - intros H. by exists a, t1.
  - by intros (a' & t' & [= -> ->] & H).
Qed.

Ltac inv_bind H :=
  let a := fresh "s" in let t := fresh "tape" in
  let H1 := fresh "Hstep" in
  apply bind_Ok in H as (a & t & H1 & H).

Lemma update_direction_fields k s :
  snake (update_direction k s) = snake s ∧
  death (update_direction k s) = death s ∧
  score (update_direction k s) = score s ∧
  apple (update_direction k s) = apple s ∧
  popped_point (update_direction k s) = popped_point s.
Proof.
  unfold update_direction.
  repeat (match goal with |- context [if ?b then _ else _] => destruct b end);
    done.
Qed.

Lemma update_snake_spec s h l0 p tape :
  head (snake s) = Some h →
  snake s = l0 ++ [p] →
  update_snake s tape
  = Ok (mkSnake (direction s) (move h (direction s) :: l0) (death s)
                (score s) (apple s) (Some p)) tape.
Proof.
  intros Hh Hl. unfold update_snake.
  destruct (snake s) as [|h' l] eqn:E; [done|].
  injection Hh as ->.
  change (mkPoint _ _) with (move h (direction s)).
  rewrite Hl, app_comm_cons, pop_snoc. done.
Qed.

Lemma update_snake_inv s tape s1 tape1 :
  update_snake s tape = Ok s1 tape1 →
  ∃ h l0 p, head (snake s) = Some h ∧ snake s = l0 ++ [p] ∧ tape1 = tape ∧
    s1 = mkSnake (direction s) (move h (direction s) :: l0) (death s)
                 (score s) (apple s) (Some p).
Proof.
  intros H. destruct (snake s) as [|h l] eqn:E.
  - unfold update_snake in H. by rewrite E in H.
  - destruct (snoc_of_cons h l) as (l0 & p & El).
    assert (head (snake s) = Some h) as Hh by (by rewrite E).
    rewrite El in E.
    rewrite (update_snake_spec s h l0 p tape Hh E) in H.
    injection H as <- <-. by exists h, l0, p.
Qed.

Lemma update_snake_nonempty s tape :
  snake s ≠ [] → ∃ s1, update_snake s tape = Ok s1 tape.
Proof.
  intros Hne. destruct (snake s) as [|h l] eqn:E; [done|].
  destruct (snoc_of_cons h l) as (l0 & p & El).
  eexists. apply (update_snake_spec s h l0 p); rewrite E; [done|apply El].
Qed.

Lemma out_of_bounds_test fh head :
  (x head <? 0) || (y head <=? HEIGHT_SCORE fh)
  || (x head >=? WIDTH) || (y head >=? HEIGHT) = true
  ↔ out_of_bounds fh head.
Proof.
  unfold out_of_bounds.
  rewrite !orb_true_iff, Z.ltb_lt, Z.leb_le, !Z.geb_le. lia.
Qed.

Lemma duplicate_test (l : list Point) :
  negb (length l =? size (list_to_set l : gset Point))%nat = true
  ↔ contains_duplicate l.
Proof.
  rewrite contains_duplicate_NoDup, <- size_list_to_set_NoDup.
  rewrite negb_true_iff, Nat.eqb_neq. split; intros H E; apply H; done.
Qed.

Lemma check_death_spec fh s head l tape :
  snake s = head :: l →
  ∃ s2, check_death fh s tape = Ok s2 tape ∧
    snake s2 = snake s ∧ score s2 = score s ∧ apple s2 = apple s ∧
    direction s2 = direction s ∧ popped_point s2 = popped_point s ∧
    (death s2 = true
     ↔ death s = true ∨ out_of_bounds fh head ∨ contains_duplicate (snake s)).
Proof.
  intros E. unfold check_death. rewrite E.
  destruct (_ || _ || _ || _) eqn:Hb.
  - exists (death_event s). split; [done|]. split_and!; try done.
    split; [|done]. intros _. right; left. by apply out_of_bounds_test.
  - destruct (negb _) eqn:Hd.
    + exists (death_event s). split; [done|]. split_and!; try done.
      split; [|done]. intros _. right; right. by apply duplicate_test.
    + exists s. split; [done|]. split_and!; try done.
      split; [tauto|]. intros [H|[H|H]]; [done| |].
      * apply out_of_bounds_test in H. congruence.
      * apply duplicate_test in H. congruence.
Qed.

Lemma pick_range a b r : a <= b → a <= pick a b r <= b.
Proof.
  intros H. unfold pick.
  pose proof (Z.mod_pos_bound r (b - a + 1)). lia.
Qed.

Lemma apple_loop_spec fh (px : gset Point) (n : nat) :
  ∀ tape a b tape', (length tape <= n)%nat →
    apple_loop fh px a tape = Ok b tape' →
    (b ∉ px) ∧ (a ∈ px ∨ in_playable fh a → in_playable fh b).
Proof.
  induction n as [|n IH]; intros tape a b tape' Hn H.
  - destruct tape; [|simpl in Hn; lia].
    simpl in H. destruct (decide (a ∈ px)); [done|].
    injection H as <- <-. split; [done|]. by intros [?|?].
  - destruct tape as [|rx [|ry tape2]]; simpl in H;
      destruct (decide (a ∈ px)) as [Hin|Hin];
      try discriminate;
      try (injection H as <- <-; split; [done|]; by intros [?|?]).
    + by destruct (_ <? _).
    + destruct (HEIGHT - 1 <? HEIGHT_SCORE fh + 1) eqn:Hr; [done|].
      apply Z.ltb_ge in Hr.
      apply IH in H as [Hb Hplay]; [|simpl in Hn; lia].
      split; [done|]. intros _. apply Hplay. right.
      pose proof (pick_range 0 (WIDTH - 1) rx).
      pose proof (pick_range (HEIGHT_SCORE fh + 1) (HEIGHT - 1) ry).
      unfold in_playable, WIDTH, HEIGHT in *. simpl. lia.
Qed.

Lemma generate_apple_inv fh s tape s' tape' :
  generate_apple fh s tape = Ok s' tape' →
  s' = set_apple (apple s') s ∧ (apple s' ∉ snake s) ∧ in_playable fh (apple s').
Proof.
  unfold generate_apple. destruct (snake s) as [|h l] eqn:E; [done|].
  intros H. inv_bind H. injection H as <- <-.
  apply (apple_loop_spec fh _ (length tape)) in Hstep as [Hn Hp]; [|done].
  split; [done|]. simpl. split.
  - intros Hin. apply Hn. by rewrite elem_of_list_to_set.
  - apply Hp. left. set_solver.
Qed.

(** X10. Every free cell of the playable rectangle can become the apple:
    when the body is not empty, the two draws that name a free cell [q] of
    the rectangle make [generate_apple] return at once, with the apple on
    [q] and no other draw read. *)
Theorem generate_apple_returns fh s q :
  snake s ≠ [] → in_playable fh q → q ∉ snake s →
  generate_apple fh s [x q; y q - (HEIGHT_SCORE fh + 1)]
  = Ok (set_apple q s) [].
Proof.
  intros Hne [Hx Hy] Hq. unfold generate_apple.
  destruct (snake s) as [|h l] eqn:E; [done|].
  unfold bind. simpl.
  rewrite decide_True by set_solver.
  assert ((HEIGHT - 1 <? HEIGHT_SCORE fh + 1) = false) as ->
    by (apply Z.ltb_ge; unfold HEIGHT in *; lia).
  assert (mkPoint (pick 0 (WIDTH - 1) (x q))
            (pick (HEIGHT_SCORE fh + 1) (HEIGHT - 1)
               (y q - (HEIGHT_SCORE fh + 1))) = q) as ->.
  { unfold pick. rewrite !Z.mod_small by (unfold WIDTH, HEIGHT in *; lia).
    destruct q as [qx qy]. simpl. f_equal; lia. }
  rewrite decide_False; [done|]. set_solver.
Qed.

Lemma generate_apple_returns_witness :
  generate_apple pyxel_FONT_HEIGHT s_apple_ahead [30; 30]
  = Ok (set_apple (mkPoint 30 37) s_apple_ahead) [].
Proof.
  apply (generate_apple_returns pyxel_FONT_HEIGHT s_apple_ahead (mkPoint 30 37)).
  - discriminate.
  - vm_compute. repeat split; discriminate.
  - set_solver.
Defined.

Lemma check_apple_inv fh s tape s' tape' :
  check_apple fh s tape = Ok s' tape' →
  ∃ h, head (snake s) = Some h ∧
    direction s' = direction s ∧ death s' = death s ∧
    popped_point s' = popped_point s ∧
    ((h ≠ apple s ∧ s' = s ∧ tape' = tape) ∨
     (h = apple s ∧ ∃ p, popped_point s = Some p ∧
        snake s' = snake s ++ [p] ∧ score s' = score s + 1 ∧
        (apple s' ∉ snake s') ∧ in_playable fh (apple s'))).
Proof.
  unfold check_apple. destruct (snake s) as [|h l] eqn:E; [done|].
  intros H. exists h. split; [done|].
  case_bool_decide as Hh.
  - destruct (popped_point s) as [p|] eqn:Ep; [|done].
    apply generate_apple_inv in H as (Hs & Hn & Hp).
    rewrite Hs. simpl. split_and!; try done.
    right. split; [done|]. exists p. by split_and!.
  - injection H as <- <-. split_and!; try done. by left.
Qed.

Lemma alive_steps_inv fh k s tape s3 tape3 :
  alive_steps fh k s tape = Ok s3 tape3 →
  ∃ h l0 p,
    head (snake s) = Some h ∧ snake s = l0 ++ [p] ∧
    direction s3 = direction (update_direction k s) ∧
    popped_point s3 = Some p ∧
    (death s3 = true ↔
       death s = true
       ∨ out_of_bounds fh (move h (direction s3))
       ∨ contains_duplicate (move h (direction s3) :: l0)) ∧
    ((move h (direction s3) ≠ apple s ∧
      snake s3 = move h (direction s3) :: l0 ∧
      score s3 = score s ∧ apple s3 = apple s ∧ tape3 = tape)
     ∨
     (move h (direction s3) = apple s ∧
      snake s3 = move h (direction s3) :: l0 ++ [p] ∧
      score s3 = score s + 1 ∧
      (apple s3 ∉ snake s3) ∧ in_playable fh (apple s3))).
Proof.
  unfold alive_steps. intros H. inv_bind H. inv_bind H.
  destruct (update_direction_fields k s) as (Hsn & Hde & Hsc & Hap & Hpp).
  apply update_snake_inv in Hstep as (h & l0 & p & Hh & Hl & -> & ->).
  rewrite Hsn in Hh, Hl. rewrite Hde, Hsc, Hap in Hstep0.
  set (d := direction (update_direction k s)) in *.
  destruct (check_death_spec fh
              (mkSnake d (move h d :: l0) (death s) (score s) (apple s) (Some p))
              (move h d) l0 tape eq_refl)
    as (s2 & E2 & Hs2 & Hc2 & Ha2 & Hd2 & Hp2 & Hdeath).
  rewrite Hstep0 in E2. injection E2 as <-. simpl in *.
  apply check_apple_inv in H as (h' & Hh' & Hd3 & Hde3 & Hp3 & Hcase).
  rewrite Hs2 in Hh'. injection Hh' as <-.
  exists h, l0, p. rewrite Hd3, Hd2, Hp3, Hp2, Hde3.
  split_and!; try done.
  destruct Hcase as [(Hne & -> & ->)|(Heq & p' & Hpp' & Hsn' & Hsc' & Hap')].
  - left. rewrite Hs2, Hc2, Ha2. by rewrite Ha2 in Hne.
  - right. rewrite Hp2 in Hpp'. injection Hpp' as <-.
    rewrite Hsn', Hsc', Hs2, Hc2. rewrite Ha2 in Heq.
    split_and!; try done; [| apply Hap'..].
    rewrite <- Hs2, <- Hsn'. apply Hap'.
Qed.

Lemma alive_steps_no_eat fh k s tape h l0 p :
  head (snake s) = Some h → snake s = l0 ++ [p] →
  move h (direction (update_direction k s)) ≠ apple s →
  ∃ s3, alive_steps fh k s tape = Ok s3 tape ∧
    snake s3 = move h (direction (update_direction k s)) :: l0 ∧
    score s3 = score s ∧ apple s3 = apple s.
Proof.
  intros Hh Hl Hne. unfold alive_steps.
  destruct (update_direction_fields k s) as (Hsn & Hde & Hsc & Hap & Hpp).
  unfold bind at 1.
  rewrite (update_snake_spec _ h l0 p) by (by rewrite Hsn).
  set (d := direction (update_direction k s)) in *.
  destruct (check_death_spec fh
              (mkSnake d (move h d :: l0) (death (update_direction k s))
                 (score (update_direction k s)) (apple (update_direction k s))
                 (Some p))
              (move h d) l0 tape eq_refl)
    as (s2 & E2 & Hs2 & Hc2 & Ha2 & Hd2 & Hp2 & _).
  unfold bind. rewrite E2. simpl in *.
  unfold check_apple. rewrite Hs2.
  rewrite bool_decide_eq_false_2 by (by rewrite Ha2, Hap).
  exists s2. rewrite Hs2, Hc2, Ha2. by split_and!.
Qed.

Lemma debug_growth_inv s tape s' tape' :
  debug_growth s tape = Ok s' tape' →
  tape' = tape ∧ ∃ p, popped_point s = Some p ∧
    s' = mkSnake (direction s) (snake s ++ [p]) (death s) (score s + 1)
                 (apple s) (Some p).
Proof.
  unfold debug_growth. destruct (popped_point s) as [p|] eqn:E; [|done].
  intros [= <- <-]. split; [done|]. exists p. split; [done|].
  unfold set_score, set_snake. simpl. by rewrite E.
Qed.

Lemma reset_inv fh s tape s' tape' :
  reset fh s tape = Ok s' tape' →
  direction s' = RIGHT ∧ snake s' = [START fh] ∧ death s' = false ∧
  score s' = 0 ∧ popped_point s' = popped_point s ∧
  apple s' ≠ START fh ∧ in_playable fh (apple s').
Proof.
  unfold reset. intros H.
  apply generate_apple_inv in H as (-> & Hn & Hp). simpl in *.
  split_and!; try done. set_solver.
Qed.

(** What one call of [update] does, read off a run that returns. *)
Lemma update_inv fh k s tape s' tape' :
  update fh k s tape = Ok s' tape' →
  btn_Q k = false ∧
  ∃ s1 tape1 s2,
    (if death s then s1 = s ∧ tape1 = tape
     else alive_steps fh k s tape = Ok s1 tape1) ∧
    (if btnp_R k then reset fh s1 tape1 = Ok s2 tape'
     else s2 = s1 ∧ tape' = tape1) ∧
    (if btnp_T k then debug_growth s2 tape' = Ok s' tape' else s' = s2).
Proof.
  unfold update. intros H. inv_bind H. inv_bind H. inv_bind H.
  destruct (btn_Q k); [done|]. injection Hstep0 as _ <-.
  split; [done|]. exists s0, tape0, s2.
  assert (tape2 = tape') as ->.
  { destruct (btnp_T k); [|by injection H as _ <-].
    by apply debug_growth_inv in H as [-> _]. }
  split_and!.
  - destruct (death s); simpl in Hstep; [by injection Hstep as <- <-|done].
  - destruct (btnp_R k); [done|by injection Hstep1 as <- <-].
  - destruct (btnp_T k); [done|by injection H as <-].
Qed.

(** ** The invariant of reachable states *)

Lemma Snake_init_inv fh tape s tape' :
  Snake_init fh tape = Ok s tape' →
  direction s = RIGHT ∧ snake s = [START fh] ∧ death s = false ∧
  score s = 0 ∧ popped_point s = None ∧
  apple s ≠ START fh ∧ in_playable fh (apple s).
Proof. intros H. by apply reset_inv in H. Qed.

Lemma Inv_fresh fh s :
  snake s = [START fh] → death s = false → in_playable fh (apple s) → Inv fh s.
Proof.
  intros Hs Hd Hp. unfold Inv. rewrite Hs, Hd. split_and!; try done.
  intros _ l0 p E. destruct l0 as [|a [|b l0]]; [set_solver|done..].
Qed.

Lemma alive_steps_Inv fh k s tape s1 tape1 :
  Inv fh s → death s = false →
  alive_steps fh k s tape = Ok s1 tape1 →
  snake s1 ≠ [] ∧ in_playable fh (apple s1) ∧
  is_Some (popped_point s1) ∧ (apple s1 ∉ snake s1).
Proof.
  intros (Hne & Hp & _ & HK) Hd H. specialize (HK Hd).
  apply alive_steps_inv in H
    as (h & l0 & p & Hh & Hl & Hdir & Hpp & Hdeath & Hcase).
  rewrite Hpp.
  destruct Hcase as [(Hneq & -> & _ & -> & _)|(_ & -> & _ & Hap & Hpl)].
  - split_and!; try done. specialize (HK _ _ Hl). set_solver.
  - by split_and!.
Qed.

Lemma Inv_handlers fh k s1 tape1 s2 tape2 s' :
  snake s1 ≠ [] → in_playable fh (apple s1) →
  (death s1 = true ∨ (apple s1 ∉ snake s1)) →
  is_Some (popped_point s1) ∨ (btnp_T k = false ∧ death s1 = false) →
  (if btnp_R k then reset fh s1 tape1 = Ok s2 tape2
   else s2 = s1 ∧ tape2 = tape1) →
  (if btnp_T k then debug_growth s2 tape2 = Ok s' tape2 else s' = s2) →
  Inv fh s'.
Proof.
  intros Hne Hp HJ Hpp HR HT.
  assert (Inv fh s2 ∧ (death s2 = false → (apple s2 ∉ snake s2)) ∧
          (is_Some (popped_point s2) ∨ btnp_T k = false)) as (HI2 & HJ2 & Hpp2).
  { destruct (btnp_R k).
    - apply reset_inv in HR as (_ & Hs & Hd & _ & Hpop & Hap & Hpl).
      split_and!.
      + by apply Inv_fresh.
      + intros _. rewrite Hs. set_solver.
      + rewrite Hpop. tauto.
    - destruct HR as [-> ->]. split_and!.
      + unfold Inv. split_and!; try done.
        * intros Hd. destruct Hpp as [?|[_ ?]]; [done|congruence].
        * intros Hd l0 p E. destruct HJ as [?|HJ]; [congruence|].
          rewrite E in HJ. set_solver.
      + intros Hd. destruct HJ as [?|HJ]; [congruence|done].
      + tauto. }
  destruct (btnp_T k); [|by subst].
  apply debug_growth_inv in HT as (_ & p & Hpop & ->).
  destruct HI2 as (Hne2 & Hp2 & _ & _).
  unfold Inv. simpl. split_and!; try done.
  - by destruct (snake s2).
  - intros Hd l0 p' E. apply app_inj_tail in E as [<- _]. by apply HJ2.
Qed.

Lemma Inv_update fh k s tape s' tape' :
  Inv fh s → update fh k s tape = Ok s' tape' → Inv fh s'.
Proof.
  intros HI H. apply update_inv in H as (_ & s1 & tape1 & s2 & H1 & HR & HT).
  destruct (death s) eqn:Hd.
  - destruct H1 as [-> ->]. destruct HI as (Hne & Hp & Hpop & _).
    eapply (Inv_handlers fh k s); eauto.
  - eapply alive_steps_Inv in H1 as (Hne & Hp & Hpop & HJ); [|done..].
    eapply (Inv_handlers fh k s1); eauto.
Qed.

Lemma reachable_Inv fh s : reachable fh s → Inv fh s.
Proof.
  induction 1 as [tape s tape' H|k s tape s' tape' _ IH H].
  - apply Snake_init_inv in H as (_ & Hs & Hd & _ & _ & _ & Hp).
    by apply Inv_fresh.
  - by eapply Inv_update.
Qed.

Lemma reachable_run fh ks : ∀ s tape s' tape',
  reachable fh s → run fh ks s tape = Ok s' tape' → reachable fh s'.
Proof.
  induction ks as [|k ks IH]; intros s tape s' tape' Hr H; simpl in H.
  - unfold ret in H. by injection H as <- _.
  - inv_bind H. eapply IH; [|done]. by eapply reachable_update.
Qed.

Lemma reachable_alive_reachable fh s : reachable_alive fh s → reachable fh s.
Proof.
  induction 1; [by eapply reachable_init|by eapply reachable_update].
Qed.

Lemma reachable_apart_reachable fh s : reachable_apart fh s → reachable fh s.
Proof.
  induction 1; [by eapply reachable_init|by eapply reachable_update].
Qed.

Lemma reachable_s_apple_ahead : reachable pyxel_FONT_HEIGHT s_apple_ahead.
Proof. by apply (reachable_init _ [6; 4] _ []). Qed.

Lemma reachable_s_far_apple : reachable pyxel_FONT_HEIGHT s_far_apple.
Proof. by apply (reachable_init _ [30; 30] _ []). Qed.

Lemma reachable_s_under_bar : reachable pyxel_FONT_HEIGHT s_under_bar.
Proof.
  apply (reachable_run _ [key_up; key_up; key_up; key_up] s_far_apple [] _ []);
    [apply reachable_s_far_apple|done].
Qed.

Lemma reachable_s_dead : reachable pyxel_FONT_HEIGHT s_dead.
Proof.
  by apply (reachable_update _ key_up s_under_bar [] _ []);
    [apply reachable_s_under_bar|].
Qed.

(** ** Death check *)

(** C1. On a tick taken while alive, once [update_snake] has moved the
    snake, [check_death] flags death exactly when the new head is outside
    the playable rectangle ([x < 0], [x >= WIDTH], [y <= HEIGHT_SCORE] or
    [y >= HEIGHT]) or two positions of the body hold the same coordinate;
    a head in the score-bar band ([y <= HEIGHT_SCORE]) is such a death.
    The flag is the one the alive steps end with, and the one the whole
    tick ends with when [KEY_R] is not pressed. *)
Theorem check_death_iff fh k s tape s1 tape1 :
  death s = false →
  update_snake (update_direction k s) tape = Ok s1 tape1 →
  ∃ hd s2,
    head (snake s1) = Some hd ∧
    check_death fh s1 tape1 = Ok s2 tape1 ∧
    (death s2 = true ↔ out_of_bounds fh hd ∨ contains_duplicate (snake s1)) ∧
    (y hd <= HEIGHT_SCORE fh → death s2 = true) ∧
    (∀ s3 tape3, alive_steps fh k s tape = Ok s3 tape3 → death s3 = death s2) ∧
    (∀ s' tape', btnp_R k = false →
       update fh k s tape = Ok s' tape' → death s' = death s2).
Proof.
  intros Hd H1.
  destruct (update_direction_fields k s) as (Hsn & Hde & Hsc & Hap & Hpp).
  pose proof H1 as H1'.
  apply update_snake_inv in H1' as (h & l0 & p & Hh & Hl & -> & Es1).
  assert (snake s1 = move h (direction (update_direction k s)) :: l0) as Esn
    by (by rewrite Es1).
  assert (death s1 = false) as Hd1 by (rewrite Es1; simpl; congruence).
  destruct (check_death_spec fh s1 _ _ tape Esn)
    as (s2 & E2 & Hs2 & Hc2 & Ha2 & Hd2 & Hp2 & Hdeath).
  rewrite Hd1 in Hdeath.
  assert (∀ s3 tape3, alive_steps fh k s tape = Ok s3 tape3 →
                      death s3 = death s2) as Halive.
  { intros s3 tape3 H3. unfold alive_steps in H3.
    inv_bind H3. inv_bind H3. rewrite H1 in Hstep. injection Hstep as <- <-.
    rewrite E2 in Hstep0. injection Hstep0 as <- <-.
    by apply check_apple_inv in H3 as (_ & _ & _ & -> & _). }
  exists (move h (direction (update_direction k s))), s2.
  split_and!; try done.
  - by rewrite Esn.
  - rewrite Hdeath. split; [intros [?|?]; [done|tauto]|tauto].
  - intros Hy. apply Hdeath. right; left. unfold out_of_bounds. tauto.
  - intros s' tape' HR H.
    apply update_inv in H as (_ & s3 & tape3 & s4 & H3 & H4 & H5).
    rewrite Hd in H3. rewrite HR in H4. destruct H4 as [-> ->].
    apply Halive in H3 as <-.
    destruct (btnp_T k); [|by subst].
    by apply debug_growth_inv in H5 as (_ & q & _ & ->).
Qed.

Lemma check_death_iff_witness :
  ∃ hd s2,
    head (snake s_dead) = Some hd ∧
    check_death pyxel_FONT_HEIGHT
      (mkSnake UP [mkPoint 5 6] false 0 (mkPoint 30 37) (Some (mkPoint 5 7))) []
    = Ok s2 [] ∧ death s2 = true.
Proof.
  destruct (check_death_iff pyxel_FONT_HEIGHT key_up s_under_bar [] _ []
              eq_refl eq_refl)
    as (hd & s2 & Hh & Hc & Hiff & Hbar & _).
  exists hd, s2. split_and!; [exact Hh|exact Hc|].
  apply Hbar. injection Hh as <-. vm_compute. discriminate.
Defined.

(** ** Length of the body *)

Lemma eats_true k s h :
  head (snake s) = Some h →
  (eats k s = true ↔ move h (direction (update_direction k s)) = apple s).
Proof.
  intros Hh. unfold eats, new_head. rewrite Hh. simpl.
  rewrite bool_decide_eq_true. split; [by intros [= ->]|by intros ->].
Qed.

(** C2, as the code has it. On a tick taken while alive on which [KEY_R]
    is not pressed, the body grows by one cell when the apple is eaten and
    by one more when [KEY_T] is pressed: its length is unchanged when
    neither happens, one more when exactly one does, two more when both. *)
Theorem update_length fh k s tape s' tape' :
  death s = false → btnp_R k = false →
  update fh k s tape = Ok s' tape' →
  length (snake s')
  = (length (snake s) + (if eats k s then 1 else 0)
     + (if btnp_T k then 1 else 0))%nat.
Proof.
  intros Hd HR H.
  apply update_inv in H as (_ & s1 & tape1 & s2 & H1 & H2 & H3).
  rewrite Hd in H1. rewrite HR in H2. destruct H2 as [-> ->].
  apply alive_steps_inv in H1
    as (h & l0 & p & Hh & Hl & Hdir & Hpp & _ & Hcase).
  pose proof (eats_true k s h Hh) as He. rewrite <- Hdir in He.
  assert (length (snake s1)
          = (length (snake s) + (if eats k s then 1 else 0))%nat) as Hlen.
  { rewrite Hl, length_app. simpl.
    destruct Hcase as [(Hne & -> & _)|(Heq & -> & _)].
    - destruct (eats k s); [by destruct Hne; apply He|simpl; lia].
    - apply He in Heq as ->. simpl. rewrite length_app. simpl. lia. }
  destruct (btnp_T k).
  - apply debug_growth_inv in H3 as (_ & q & _ & ->). simpl.
    rewrite length_app. simpl. lia.
  - subst. lia.
Qed.

Lemma update_length_witness :
  ∃ s' tape',
    update pyxel_FONT_HEIGHT key_T s_apple_ahead [7; 4] = Ok s' tape' ∧
    length (snake s') = 3%nat.
Proof.
  eexists _, _. split; [reflexivity|].
  exact (update_length pyxel_FONT_HEIGHT key_T s_apple_ahead [7; 4] _ _
           eq_refl eq_refl eq_refl).
Defined.

(** A tick with [KEY_R] replaces the body, whatever its length, by the
    start cell. *)
Lemma update_length_reset :
  ∃ s' tape',
    update pyxel_FONT_HEIGHT
      (mkKeys false false false false false true false) s_tripled [0; 0; 0; 0]
    = Ok s' tape' ∧ length (snake s_tripled) = 6%nat ∧ length (snake s') = 1%nat.
Proof. eexists _, _. split_and!; reflexivity. Qed.

(** C2 as it is worded fails: a tick that eats the apple with [KEY_T]
    pressed lengthens the body by two, not by one. *)
Lemma update_length_not_one :
  ¬ (∀ k s tape s' tape',
       reachable pyxel_FONT_HEIGHT s → death s = false →
       update pyxel_FONT_HEIGHT k s tape = Ok s' tape' →
       length (snake s')
       = (length (snake s) + (if eats k s || btnp_T k then 1 else 0))%nat).
Proof.
  intros H.
  specialize (H key_T s_apple_ahead [7; 4] _ _
                reachable_s_apple_ahead eq_refl eq_refl).
  vm_compute in H. discriminate.
Qed.

(** ** A fatal move eats no apple *)

(** C3, as the code has it. From a reachable state that is alive, when the
    move puts the new head out of bounds or onto a coordinate of the rest of
    the body, the steps taken while alive flag death and leave the score and
    the apple as they were: [check_apple] finds no apple under the head and
    draws nothing, so no apple is eaten on a fatal move. When [KEY_Q] is not
    held and [KEY_R] is not pressed, the tick returns a dead game with the
    same apple and without reading a draw; its score is the score before the
    tick, plus one when [KEY_T] is pressed on that tick, and with [KEY_T]
    not pressed it is the very state the steps taken while alive end in. *)
Theorem fatal_move_no_apple fh k s tape s1 tape1 hd tl :
  reachable fh s → death s = false →
  update_snake (update_direction k s) tape = Ok s1 tape1 →
  snake s1 = hd :: tl →
  out_of_bounds fh hd ∨ hd ∈ tl →
  ∃ s3,
    alive_steps fh k s tape = Ok s3 tape ∧
    death s3 = true ∧ score s3 = score s ∧ apple s3 = apple s ∧
    snake s3 = snake s1 ∧
    (btn_Q k = false → btnp_R k = false →
     ∃ s', update fh k s tape = Ok s' tape ∧
           death s' = true ∧ apple s' = apple s ∧
           score s' = score s + (if btnp_T k then 1 else 0) ∧
           (btnp_T k = false → s' = s3)).
Proof.
  intros Hr Hd H1 Hs1 Hfatal.
  destruct (reachable_Inv fh s Hr) as (Hne & Hplay & _ & HK).
  specialize (HK Hd).
  destruct (update_direction_fields k s) as (Hsn & Hde & Hsc & Hap & Hpp).
  apply update_snake_inv in H1 as (h & l0 & p & Hh & Hl & -> & Es1).
  rewrite Hsn in Hh, Hl. specialize (HK l0 p Hl).
  rewrite Es1 in Hs1. simpl in Hs1. injection Hs1 as <- <-.
  set (nh := move h (direction (update_direction k s))) in *.
  assert (nh ≠ apple s) as Hneq.
  { intros E. destruct Hfatal as [Hoob|Hin]; [|by rewrite E in Hin].
    rewrite E in Hoob. unfold out_of_bounds, in_playable in *. lia. }
  destruct (alive_steps_no_eat fh k s tape h l0 p Hh Hl Hneq)
    as (s3 & H3 & Hs3 & Hc3 & Ha3).
  exists s3.
  assert (death s3 = true ∧ popped_point s3 = Some p) as [Hd3 Hpp3].
  { pose proof H3 as H3'.
    apply alive_steps_inv in H3'
      as (h' & l0' & p' & Hh' & Hl' & Hdir & Hpop & Hdeath & _).
    rewrite Hh in Hh'. injection Hh' as <-.
    rewrite Hl in Hl'. apply app_inj_tail in Hl' as [<- <-].
    split; [|done].
    rewrite Hdir in Hdeath. apply Hdeath. right.
    destruct Hfatal as [?|Hin]; [by left|right].
    apply list_elem_of_lookup in Hin as [j Hj].
    exists 0%nat, (S j), nh. by split_and!. }
  split_and!; try done.
  - by rewrite Es1.
  - intros HQ HR. unfold update, bind. rewrite Hd, HQ, HR. simpl.
    rewrite H3. destruct (btnp_T k).
    + unfold debug_growth. rewrite Hpp3.
      eexists. split; [reflexivity|]. simpl. split_and!; try done.
      by rewrite Hc3.
    + exists s3. split_and!; try done. lia.
Qed.

Lemma fatal_move_no_apple_witness :
  ∃ s3,
    alive_steps pyxel_FONT_HEIGHT key_up s_under_bar [] = Ok s3 [] ∧
    death s3 = true ∧ score s3 = 0 ∧ apple s3 = mkPoint 30 37.
Proof.
  destruct (fatal_move_no_apple pyxel_FONT_HEIGHT key_up s_under_bar [] _ []
              (mkPoint 5 6) [] reachable_s_under_bar eq_refl eq_refl eq_refl)
    as (s3 & H3 & Hd & Hsc & Hap & _).
  - left. vm_compute. right; right; left. discriminate.
  - exists s3. by split_and!.
Defined.

(** C3 as it is worded fails: the handler of [KEY_T] runs on the tick of
    the death too. From the state one step under the score bar, a tick with
    [KEY_UP] held and [KEY_T] pressed moves the head into the bar, which is
    fatal, and ends with the score at 1. *)
Lemma fatal_tick_changes_score :
  ¬ (∀ k s tape s1 tape1 hd tl s' tape',
       reachable pyxel_FONT_HEIGHT s → death s = false →
       update_snake (update_direction k s) tape = Ok s1 tape1 →
       snake s1 = hd :: tl →
       out_of_bounds pyxel_FONT_HEIGHT hd ∨ hd ∈ tl →
       update pyxel_FONT_HEIGHT k s tape = Ok s' tape' →
       death s' = true ∧ score s' = score s ∧ apple s' = apple s).
Proof.
  intros H.
  destruct (H key_up_T s_under_bar [] _ [] (mkPoint 5 6) []
              (mkSnake UP [mkPoint 5 6; mkPoint 5 7] true 1 (mkPoint 30 37)
                 (Some (mkPoint 5 7))) []
              reachable_s_under_bar eq_refl eq_refl eq_refl)
    as (_ & Hsc & _); [|reflexivity|].
  - left. vm_compute. right; right; left. discriminate.
  - vm_compute in Hsc. discriminate.
Qed.

(** A fatal move on a tick with [KEY_R]: the tick ends in the new game,
    alive, with a new apple. *)
Lemma fatal_tick_reset :
  update pyxel_FONT_HEIGHT key_up_R s_under_bar [6; 4]
  = Ok (mkSnake RIGHT [mkPoint 5 11] false 0 (mkPoint 6 11)
          (Some (mkPoint 5 7))) [].
Proof. reflexivity. Qed.

(** [check_apple] runs whether or not [check_death] has just flagged
    death. A reachable body can hold a cell twice, after ticks that both eat
    and take [KEY_T]; the next move then dies of that duplicate with the
    head on a free cell, and if the apple is there it is eaten on the tick
    of the death. The head is neither out of bounds nor on the body, so this
    is not a move of the kind C3 speaks of. *)
Lemma death_tick_can_eat :
  reachable pyxel_FONT_HEIGHT s_tripled ∧
  update pyxel_FONT_HEIGHT nokeys s_tripled [0; 0]
  = Ok (mkSnake RIGHT
          [mkPoint 9 11; mkPoint 8 11; mkPoint 7 11; mkPoint 6 11;
           mkPoint 5 11; mkPoint 5 11; mkPoint 5 11]
          true 6 (mkPoint 0 7) (Some (mkPoint 5 11))) [].
Proof.
  split; [|reflexivity].
  apply (reachable_run _ [key_T; nokeys; key_T] s_apple_ahead
           [7; 4; 8; 4; 9; 4] _ []);
    [apply reachable_s_apple_ahead|reflexivity].
Qed.

(** ** Apple placement *)

(** C4. Whenever an apple is placed and the sampling loop returns (by
    [generate_apple] itself, by [reset], or by [check_apple] when the head
    is on the apple), the new apple is on no cell of the snake and lies in
    the playable rectangle: [0 <= x < WIDTH] and
    [HEIGHT_SCORE < y < HEIGHT]. *)
Theorem apple_placement fh s tape s' tape' :
  generate_apple fh s tape = Ok s' tape'
  ∨ reset fh s tape = Ok s' tape'
  ∨ (head (snake s) = Some (apple s) ∧ check_apple fh s tape = Ok s' tape') →
  (apple s' ∉ snake s') ∧
  0 <= x (apple s') < WIDTH ∧ HEIGHT_SCORE fh < y (apple s') < HEIGHT.
Proof.
  intros [H|[H|[Hh H]]].
  - apply generate_apple_inv in H as (-> & Hn & Hp). by simpl.
  - apply reset_inv in H as (_ & -> & _ & _ & _ & Hn & Hp).
    split; [set_solver|done].
  - apply check_apple_inv in H as (h & Hh' & _ & _ & _ & Hcase).
    rewrite Hh in Hh'. injection Hh' as <-.
    destruct Hcase as [(Hne & _)|(_ & p & _ & _ & _ & Hn & Hp)]; done.
Qed.

Lemma apple_placement_witness :
  (mkPoint 6 11 ∉ [mkPoint 5 11]) ∧ 0 <= 6 < WIDTH
  ∧ HEIGHT_SCORE pyxel_FONT_HEIGHT < 11 < HEIGHT.
Proof.
  apply (apple_placement pyxel_FONT_HEIGHT s_far_apple [5; 4; 6; 4]
           s_apple_ahead []).
  right; left. reflexivity.
Defined.

(** ** Direction update *)

Lemma directions_cases (d : Ref) :
  d ∈ directions → d = UP ∨ d = DOWN ∨ d = LEFT ∨ d = RIGHT.
Proof. unfold directions. set_solver. Qed.

Ltac each_direction s H :=
  destruct s as [d sn de sc ap pp]; simpl in H;
  apply directions_cases in H as [->|[->|[->| ->]]].

Ltac each_key k := destruct k as [[] [] [] [] ? ? ?].

(** C5. With the current direction one of the four constants,
    [update_direction] sets the direction to the first of the held
    directions, in the order Up, Down, Left, Right, that is not the opposite
    of the current one, and leaves it as it is when there is none; so the
    new direction is never the opposite of the old one, it is the old one or
    a held one, and nothing else in the game changes. *)
Theorem update_direction_accepts k s :
  direction s ∈ directions →
  direction (update_direction k s)
  = default (direction s) (accepted (direction s) k) ∧
  val (direction (update_direction k s)) ≠ opposite (val (direction s)) ∧
  (direction (update_direction k s) = direction s
   ∨ direction (update_direction k s) ∈ requested k) ∧
  (accepted (direction s) k = None → update_direction k s = s) ∧
  update_direction k s = set_direction (direction (update_direction k s)) s.
Proof.
  intros H. each_direction s H; each_key k;
    (split_and!;
     [reflexivity | vm_compute; discriminate
     | vm_compute; set_solver | vm_compute; (done || discriminate)
     | reflexivity]).
Qed.

Lemma update_direction_accepts_witness :
  direction (update_direction
               (mkKeys false true true false false false false) s_under_bar)
  = LEFT.
Proof.
  destruct (update_direction_accepts
              (mkKeys false true true false false false false) s_under_bar)
    as [E _].
  - unfold directions. simpl. set_solver.
  - rewrite E. reflexivity.
Defined.

(** C8. With the current direction one of the four constants, comparing
    references ([is not], as the source does) and comparing values give the
    same update, whatever keys are held. *)
Theorem update_direction_is_eq k s :
  direction s ∈ directions →
  update_direction k s = update_direction_eq k s.
Proof.
  intros H. each_direction s H; each_key k; reflexivity.
Qed.

Lemma update_direction_is_eq_witness :
  update_direction key_up s_apple_ahead
  = update_direction_eq key_up s_apple_ahead.
Proof.
  apply update_direction_is_eq. unfold directions. simpl. set_solver.
Defined.

(** The two comparisons are not the same function: on a second object
    holding the value of [DOWN], the reference test lets Up through and the
    value test does not. No such object is ever stored in [direction]. *)
Lemma reference_test_differs_on_copy :
  let copy := mkRef 4 (val DOWN) in
  let s := mkSnake copy [mkPoint 5 11] false 0 (mkPoint 6 11) None in
  direction (update_direction key_up s) = UP ∧
  direction (update_direction_eq key_up s) = copy.
Proof. split; reflexivity. Qed.

Lemma update_direction_in k s :
  direction (update_direction k s) = direction s
  ∨ direction (update_direction k s) ∈ directions.
Proof.
  unfold update_direction, directions.
  repeat (match goal with |- context [if ?b then _ else _] => destruct b end);
    simpl; set_solver.
Qed.

Lemma reachable_direction fh s : reachable fh s → direction s ∈ directions.
Proof.
  induction 1 as [tape s tape' H|k s tape s' tape' _ IH H].
  - apply Snake_init_inv in H as (-> & _). unfold directions. set_solver.
  - apply update_inv in H as (_ & s1 & tape1 & s2 & H1 & H2 & H3).
    assert (direction s1 ∈ directions) as Hd1.
    { destruct (death s); [by destruct H1 as [-> _]|].
      apply alive_steps_inv in H1 as (_ & _ & _ & _ & _ & -> & _).
      by destruct (update_direction_in k s) as [->|?]. }
    assert (direction s2 ∈ directions) as Hd2.
    { destruct (btnp_R k); [|by destruct H2 as [-> _]].
      apply reset_inv in H2 as (-> & _). unfold directions. set_solver. }
    destruct (btnp_T k); [|by subst].
    by apply debug_growth_inv in H3 as (_ & q & _ & ->).
Qed.

(** ** Dead states *)

Lemma update_dead fh k s tape s' tape' :
  death s = true → btnp_R k = false →
  update fh k s tape = Ok s' tape' →
  tape' = tape ∧
  if btnp_T k then
    ∃ p, popped_point s = Some p ∧
      s' = mkSnake (direction s) (snake s ++ [p]) true (score s + 1)
                   (apple s) (Some p)
  else s' = s.
Proof.
  intros Hd HR H.
  apply update_inv in H as (_ & s1 & tape1 & s2 & H1 & H2 & H3).
  rewrite Hd in H1. rewrite HR in H2.
  destruct H1 as [-> ->], H2 as [-> ->]. split; [done|].
  destruct (btnp_T k); [|done].
  apply debug_growth_inv in H3 as (_ & p & Hp & ->). exists p.
  by rewrite Hd.
Qed.

Lemma presses_cons k ks :
  presses (k :: ks) = if btnp_T k then S (presses ks) else presses ks.
Proof.
  unfold presses. rewrite filter_cons.
  destruct (btnp_T k); [by rewrite decide_True|by rewrite decide_False].
Qed.

(** C6, as the code has it. From a dead state, over any number of ticks
    without [KEY_R]: the game stays dead, the apple, the direction and the
    stored popped point keep their values and nothing is drawn; the body
    and the score keep their values on the ticks without [KEY_T], and each
    tick with [KEY_T] appends the stored popped point to the body and adds
    one to the score. *)
Theorem dead_until_reset fh ks : ∀ s tape s' tape',
  death s = true →
  Forall (λ k, btnp_R k = false) ks →
  run fh ks s tape = Ok s' tape' →
  death s' = true ∧ apple s' = apple s ∧ direction s' = direction s ∧
  popped_point s' = popped_point s ∧ tape' = tape ∧
  score s' = score s + Z.of_nat (presses ks) ∧
  (∃ extra, snake s' = snake s ++ extra ∧ length extra = presses ks ∧
            ∀ q, q ∈ extra → popped_point s = Some q) ∧
  (presses ks = 0%nat → s' = s).
Proof.
  induction ks as [|k ks IH]; intros s tape s' tape' Hd HR H; simpl in H.
  - unfold ret in H. injection H as <- <-.
    change (presses []) with 0%nat.
    split_and!; try done; [lia|].
    exists []. split_and!; [by rewrite app_nil_r|done|set_solver].
  - inv_bind H. apply Forall_cons in HR as [HRk HR].
    apply (update_dead fh k s tape s0 tape0 Hd HRk) in Hstep as [-> Hk].
    rewrite presses_cons.
    destruct (btnp_T k) eqn:HT.
    + destruct Hk as (p & Hp & ->).
      apply IH in H as (Hd' & Ha & Hdir & Hpop & Ht & Hsc & Hext & _);
        [|done..]. simpl in *.
      destruct Hext as (extra & Hsn & Hlen & Hall).
      split_and!; try done; [by rewrite Hpop|lia|].
      exists (p :: extra). rewrite Hsn, <- app_assoc. simpl.
      split_and!; [done|lia|].
      intros q Hq. apply elem_of_cons in Hq as [->|Hq]; [done|].
      rewrite Hp. by apply Hall.
    + subst s0. by apply IH in H.
Qed.

Lemma dead_until_reset_witness :
  run pyxel_FONT_HEIGHT [nokeys; key_T; key_up] s_dead []
  = Ok (mkSnake UP [mkPoint 5 6; mkPoint 5 7] true 1 (mkPoint 30 37)
          (Some (mkPoint 5 7))) []
  ∧ 1 = 0 + Z.of_nat (presses [nokeys; key_T; key_up]).
Proof.
  split; [reflexivity|].
  refine (proj1 (proj2 (proj2 (proj2 (proj2 (proj2
    (dead_until_reset pyxel_FONT_HEIGHT [nokeys; key_T; key_up] s_dead [] _ []
       eq_refl _ eq_refl))))))).
  repeat constructor.
Defined.

(** C6 as it is worded fails: a dead game still answers [KEY_T], which
    lengthens the body and raises the score. *)
Lemma dead_state_changes :
  ¬ (∀ k s tape s' tape',
       reachable pyxel_FONT_HEIGHT s → death s = true → btnp_R k = false →
       update pyxel_FONT_HEIGHT k s tape = Ok s' tape' →
       snake s' = snake s ∧ apple s' = apple s ∧ score s' = score s).
Proof.
  intros H.
  destruct (H key_T s_dead [] _ [] reachable_s_dead eq_refl eq_refl eq_refl)
    as (Hsn & _ & Hsc).
  vm_compute in Hsc. discriminate.
Qed.

(** ** Quit and reset *)

(** C7, as the code has it. When [KEY_Q] is held, the tick returns no
    state, whether [KEY_R] is pressed or not: once the steps taken while
    alive are through (or at once when dead), [update] calls [pyxel.quit()]
    and the reset that follows is not reached. *)
Theorem quit_before_reset fh k s tape :
  btn_Q k = true →
  (∀ s' tape', update fh k s tape ≠ Ok s' tape') ∧
  (death s = true → update fh k s tape = Quit) ∧
  (∀ s1 tape1, alive_steps fh k s tape = Ok s1 tape1 →
               update fh k s tape = Quit).
Proof.
  intros HQ. split_and!.
  - intros s' tape' H. apply update_inv in H as [H _]. congruence.
  - intros Hd. unfold update. rewrite Hd, HQ. reflexivity.
  - intros s1 tape1 H1. unfold update, bind. rewrite HQ.
    destruct (death s); simpl; [done|]. by rewrite H1.
Qed.

Lemma quit_before_reset_witness :
  update pyxel_FONT_HEIGHT key_QR s_apple_ahead [7; 4] = Quit.
Proof.
  destruct (quit_before_reset pyxel_FONT_HEIGHT key_QR s_apple_ahead [7; 4]
              eq_refl) as (_ & _ & H).
  eapply H. reflexivity.
Defined.

(** C7 as it is worded fails: with [KEY_Q] and [KEY_R] both down, the tick
    quits and returns no reset state. *)
Lemma reset_does_not_win :
  ¬ (∀ k s tape,
       reachable pyxel_FONT_HEIGHT s → btn_Q k = true → btnp_R k = true →
       ∃ s' tape', update pyxel_FONT_HEIGHT k s tape = Ok s' tape' ∧
                   snake s' = [START pyxel_FONT_HEIGHT] ∧ death s' = false).
Proof.
  intros H.
  destruct (H key_QR s_apple_ahead [7; 4; 9; 9]
              reachable_s_apple_ahead eq_refl eq_refl)
    as (s' & tape' & Hu & _).
  vm_compute in Hu. discriminate.
Qed.

(** ** The apple and the body *)

Lemma apple_apart_update fh k s tape s' tape' :
  apple_apart s → btnp_R k && btnp_T k = false →
  update fh k s tape = Ok s' tape' → apple_apart s'.
Proof.
  intros [HJ Hpop] HRT H.
  apply update_inv in H as (_ & s1 & tape1 & s2 & H1 & H2 & H3).
  assert ((apple s1 ∉ snake s1) ∧ popped_point s1 ≠ Some (apple s1))
    as [HJ1 Hpop1].
  { destruct (death s) eqn:Hd; [destruct H1 as [-> ->]; auto|].
    apply alive_steps_inv in H1
      as (h & l0 & p & Hh & Hl & _ & Hpp & _ & Hcase).
    rewrite Hpp. rewrite Hl in HJ.
    destruct Hcase as [(Hne & -> & _ & -> & _)|(_ & Hs1 & _ & Hap & _)].
    - split; [set_solver|]. intros [= ->]. set_solver.
    - split; [done|]. intros [= ->]. rewrite Hs1 in Hap. set_solver. }
  destruct (btnp_R k) eqn:HR.
  - simpl in HRT. rewrite HRT in H3. subst s'.
    apply reset_inv in H2 as (_ & Hs & Hd & _ & _ & Hap & _).
    split; [rewrite Hs; set_solver|congruence].
  - destruct H2 as [-> ->]. destruct (btnp_T k); [|by subst].
    apply debug_growth_inv in H3 as (_ & p & Hp & ->). simpl.
    rewrite Hp in Hpop1.
    split; [|done]. intros Hin. apply elem_of_app in Hin as [?|Hin]; [done|].
    apply list_elem_of_singleton in Hin. simpl in Hin. congruence.
Qed.

(** C9, as the code has it. In every state reached by ticks on which
    [KEY_R] and [KEY_T] are not pressed together, alive or dead, the apple is
    on no cell of the body. *)
Theorem apple_off_body fh s :
  reachable_apart fh s → apple s ∉ snake s.
Proof.
  intros Hr. cut (apple_apart s); [by intros [? _]|].
  induction Hr as [tape s tape' H|k s tape s' tape' _ IH HRT H].
  - apply Snake_init_inv in H as (_ & Hs & Hd & _ & _ & Hap & _).
    split; [rewrite Hs; set_solver|congruence].
  - by eapply apple_apart_update.
Qed.

Lemma apple_off_body_witness : mkPoint 30 37 ∉ [mkPoint 6 11].
Proof.
  apply (apple_off_body pyxel_FONT_HEIGHT s_moved).
  apply (reachable_apart_update _ nokeys s_far_apple [] _ []);
    [|reflexivity|reflexivity].
  by apply (reachable_apart_init _ [30; 30] _ []).
Defined.

(** C9 as it is worded fails: a tick taken while alive with [KEY_R] and
    [KEY_T] pressed together starts a new game whose body holds a cell of
    the old one, appended after the apple was placed; the apple can be on
    that cell. *)
Lemma apple_on_body :
  ¬ (∀ s, reachable_alive pyxel_FONT_HEIGHT s → apple s ∉ snake s).
Proof.
  intros H. apply (H s_stale); [|vm_compute; set_solver].
  apply (reachable_alive_update _ key_RT s_moved [6; 4] _ []);
    [|reflexivity|reflexivity].
  apply (reachable_alive_update _ nokeys s_far_apple [] _ []);
    [|reflexivity|reflexivity].
  by apply (reachable_alive_init _ [30; 30] _ []).
Qed.

(** ** The popped point is set before it is read *)

Lemma bind_Raise {A B} (m : M A) (f : A → M B) tape e :
  bind m f tape = Raise e →
  m tape = Raise e ∨ ∃ a tape1, m tape = Ok a tape1 ∧ f a tape1 = Raise e.
Proof.
  unfold bind. destruct (m tape) as [a t1|e'| |]; try discriminate.
  - intros H. right. by exists a, t1.
  - intros [= ->]. by left.
Qed.

Lemma apple_loop_Raise fh px (n : nat) :
  ∀ tape a e, (length tape <= n)%nat →
    apple_loop fh px a tape = Raise e → e = ValueError.
Proof.
  induction n as [|n IH]; intros tape a e Hn H.
  - destruct tape; [|simpl in Hn; lia].
    simpl in H. by destruct (decide (a ∈ px)).
  - destruct tape as [|rx [|ry tape2]]; simpl in H;
      destruct (decide (a ∈ px)); try discriminate.
    + destruct (_ <? _); [by injection H|done].
    + destruct (_ <? _); [by injection H|].
      eapply IH; [|done]. simpl in Hn. lia.
Qed.

Lemma generate_apple_Raise fh s tape :
  generate_apple fh s tape ≠ Raise AttributeError.
Proof.
  unfold generate_apple. destruct (snake s) as [|h l]; [done|].
  intros [H|(a & t & _ & H)]%bind_Raise; [|done].
  by apply (apple_loop_Raise fh _ (length tape)) in H.
Qed.

Lemma alive_steps_Raise fh k s tape :
  alive_steps fh k s tape ≠ Raise AttributeError.
Proof.
  unfold alive_steps. intros [H|(s1 & t1 & H1 & H)]%bind_Raise.
  - unfold update_snake in H. destruct (snake _); [done|].
    by destruct (pop _) as [[? ?]|].
  - apply update_snake_inv in H1 as (h & l0 & p & _ & _ & -> & ->).
    apply bind_Raise in H as [H|(s2 & t2 & H2 & H)].
    + unfold check_death in H. simpl in H.
      by repeat (match type of H with
                 | context [if ?b then _ else _] => destruct b end).
    + edestruct (check_death_spec fh) as (s2' & E2 & Hs2 & _ & _ & _ & Hp2 & _);
        [|rewrite H2 in E2; injection E2 as <-]; [reflexivity|].
      unfold check_apple in H. simpl in Hs2, Hp2. rewrite Hs2, Hp2 in H.
      case_bool_decide; [|done]. by apply generate_apple_Raise in H.
Qed.

Lemma update_no_AttributeError fh k s tape :
  (death s = true → is_Some (popped_point s)) →
  update fh k s tape ≠ Raise AttributeError.
Proof.
  intros Hpop. unfold update.
  intros [H|(s1 & t1 & H1 & H)]%bind_Raise.
  { destruct (death s); [done|]. by apply alive_steps_Raise in H. }
  assert (is_Some (popped_point s1)) as Hp1.
  { destruct (death s); simpl in H1.
    - injection H1 as <- _. by apply Hpop.
    - apply alive_steps_inv in H1 as (_ & _ & p & _ & _ & _ & -> & _). done. }
  apply bind_Raise in H as [H|(u & t2 & _ & H)]; [by destruct (btn_Q k)|].
  apply bind_Raise in H as [H|(s2 & t3 & H2 & H)].
  { destruct (btnp_R k); [|done]. by apply generate_apple_Raise in H. }
  assert (is_Some (popped_point s2)) as [p Hp2].
  { destruct (btnp_R k); [|by injection H2 as <- _].
    apply reset_inv in H2 as (_ & _ & _ & _ & -> & _). done. }
  destruct (btnp_T k); [|done].
  unfold debug_growth in H. by rewrite Hp2 in H.
Qed.

Lemma reappends_after_reset_holds : reappends_after_reset.
Proof.
  exists key_RT, s_moved, [6; 4], s_stale, [], (mkPoint 6 11).
  split_and!; try reflexivity; [|set_solver].
  apply (reachable_update _ nokeys s_far_apple [] _ []);
    [apply reachable_s_far_apple|reflexivity].
Qed.

Lemma reappends_while_dead_holds : reappends_while_dead.
Proof.
  exists key_T, s_dead, [],
    (mkSnake UP [mkPoint 5 6; mkPoint 5 7] true 1 (mkPoint 30 37)
       (Some (mkPoint 5 7))), [], (mkPoint 5 7).
  split_and!; try reflexivity. apply reachable_s_dead.
Qed.

(** C10. In every reachable state, whatever the keys and the draws,
    [update] does not fail on an unset [popped_point]: a state is alive, so
    that the tick moves the snake and sets the field before the handler of
    [KEY_T] reads it, or it holds a popped point already. What the handler
    appends can be a cell popped by the game a reset has just replaced, and
    on a dead game it is the point popped on an earlier tick. *)
Theorem popped_point_defined fh k s tape :
  reachable fh s →
  update fh k s tape ≠ Raise AttributeError ∧
  (death s = false ∨ is_Some (popped_point s)) ∧
  reappends_after_reset ∧ reappends_while_dead.
Proof.
  intros Hr. destruct (reachable_Inv fh s Hr) as (_ & _ & Hpop & _).
  split_and!.
  - by apply update_no_AttributeError.
  - destruct (death s); [right; by apply Hpop|by left].
  - apply reappends_after_reset_holds.
  - apply reappends_while_dead_holds.
Qed.

Lemma popped_point_defined_witness :
  update pyxel_FONT_HEIGHT key_T s_apple_ahead [7; 4] ≠ Raise AttributeError.
Proof.
  exact (proj1 (popped_point_defined pyxel_FONT_HEIGHT key_T s_apple_ahead
                  [7; 4] reachable_s_apple_ahead)).
Defined.

(** * Further properties of the game *)

(** ** Score and length *)

(** X1. In every reachable state the score is the number of cells of the
    body less one: the two grow together, by the apple and by [KEY_T], and
    [reset] sets them to 0 and 1. *)
Theorem score_is_length fh s :
  reachable fh s → score s = Z.of_nat (length (snake s)) - 1.
Proof.
  induction 1 as [tape s tape' H|k s tape s' tape' _ IH H].
  - apply Snake_init_inv in H as (_ & -> & _ & -> & _). done.
  - apply update_inv in H as (_ & s1 & tape1 & s2 & H1 & H2 & H3).
    assert (score s1 = Z.of_nat (length (snake s1)) - 1) as IH1.
    { destruct (death s); [by destruct H1 as [-> _]|].
      apply alive_steps_inv in H1
        as (h & l0 & p & _ & Hl & _ & _ & _ & Hcase).
      rewrite Hl, length_app in IH. simpl in IH.
      destruct Hcase as [(_ & -> & -> & _)|(_ & -> & -> & _)]; simpl;
        rewrite ?length_app; simpl; lia. }
    assert (score s2 = Z.of_nat (length (snake s2)) - 1) as IH2.
    { destruct (btnp_R k); [|by destruct H2 as [-> _]].
      apply reset_inv in H2 as (_ & -> & _ & -> & _). done. }
    destruct (btnp_T k); [|by subst].
    apply debug_growth_inv in H3 as (_ & p & _ & ->). simpl.
    rewrite length_app. simpl. lia.
Qed.

Lemma score_is_length_witness : score s_tripled = 6 - 1.
Proof.
  apply (score_is_length pyxel_FONT_HEIGHT s_tripled).
  apply (reachable_run _ [key_T; nokeys; key_T] s_apple_ahead
           [7; 4; 8; 4; 9; 4] _ []);
    [apply reachable_s_apple_ahead|reflexivity].
Defined.

(** ** No exception *)

Lemma apple_loop_no_Raise fh px (n : nat) :
  HEIGHT_SCORE fh + 1 <= HEIGHT - 1 →
  ∀ tape a e, (length tape <= n)%nat → apple_loop fh px a tape ≠ Raise e.
Proof.
  intros Hrange. apply Z.ltb_ge in Hrange.
  induction n as [|n IH]; intros tape a e Hn H.
  - destruct tape; [|simpl in Hn; lia].
    simpl in H. by destruct (decide (a ∈ px)).
  - destruct tape as [|rx [|ry tape2]]; simpl in H;
      destruct (decide (a ∈ px)); try discriminate;
      rewrite Hrange in H; [done|].
    eapply IH; [|done]. simpl in Hn. lia.
Qed.

Lemma generate_apple_no_Raise fh s tape e :
  HEIGHT_SCORE fh + 1 <= HEIGHT - 1 → snake s ≠ [] →
  generate_apple fh s tape ≠ Raise e.
Proof.
  intros Hrange Hne. unfold generate_apple.
  destruct (snake s) as [|h l]; [done|].
  intros [H|(a & t & _ & H)]%bind_Raise; [|done].
  by apply (apple_loop_no_Raise fh _ (length tape)) in H.
Qed.

Lemma alive_steps_no_Raise fh k s tape e :
  HEIGHT_SCORE fh + 1 <= HEIGHT - 1 → snake s ≠ [] →
  alive_steps fh k s tape ≠ Raise e.
Proof.
  intros Hrange Hne.
  destruct (update_direction_fields k s) as (Hsn & _).
  destruct (update_snake_nonempty (update_direction k s) tape) as [s1 H1];
    [by rewrite Hsn|].
  unfold alive_steps. intros [H|(s1' & t1 & H1' & H)]%bind_Raise;
    [by rewrite H1 in H|].
  rewrite H1 in H1'. injection H1' as <- <-.
  apply update_snake_inv in H1 as (h & l0 & p & _ & _ & _ & Es1).
  destruct (check_death_spec fh s1 (move h (direction (update_direction k s)))
              l0 tape) as (s2 & E2 & Hs2 & _ & _ & _ & Hp2 & _);
    [by rewrite Es1|].
  apply bind_Raise in H as [H|(s2' & t2 & H2 & H)]; [by rewrite E2 in H|].
  rewrite E2 in H2. injection H2 as <- <-.
  unfold check_apple in H. rewrite Hs2, Es1 in H. simpl in H.
  rewrite Hp2, Es1 in H. simpl in H.
  case_bool_decide; [|done].
  by apply generate_apple_no_Raise in H.
Qed.

(** X2. From a reachable state, when the rows under the score bar are not
    empty ([HEIGHT_SCORE + 1 <= HEIGHT - 1]), [update] raises nothing,
    whatever the keys and the draws: the deque is never empty when its head
    or its tail is read, [popped_point] is set when it is read, and the
    range given to [randint] is never empty. *)
Theorem update_never_raises fh k s tape e :
  reachable fh s → HEIGHT_SCORE fh + 1 <= HEIGHT - 1 →
  update fh k s tape ≠ Raise e.
Proof.
  intros Hr Hrange.
  destruct (reachable_Inv fh s Hr) as (Hne & _ & Hpop & _).
  unfold update. intros [H|(s1 & t1 & H1 & H)]%bind_Raise.
  { destruct (death s); [done|]. by apply alive_steps_no_Raise in H. }
  assert (is_Some (popped_point s1)) as Hp1.
  { destruct (death s); simpl in H1.
    - injection H1 as <- _. by apply Hpop.
    - apply alive_steps_inv in H1 as (_ & _ & p & _ & _ & _ & -> & _). done. }
  apply bind_Raise in H as [H|(u & t2 & _ & H)]; [by destruct (btn_Q k)|].
  apply bind_Raise in H as [H|(s2 & t3 & H2 & H)].
  { destruct (btnp_R k); [|done]. by apply generate_apple_no_Raise in H. }
  assert (is_Some (popped_point s2)) as [p Hp2].
  { destruct (btnp_R k); [|by injection H2 as <- _].
    apply reset_inv in H2 as (_ & _ & _ & _ & -> & _). done. }
  destruct (btnp_T k); [|done].
  unfold debug_growth in H. by rewrite Hp2 in H.
Qed.

Lemma update_never_raises_witness :
  update pyxel_FONT_HEIGHT key_RT s_dead [6; 4] ≠ Raise IndexError.
Proof.
  apply update_never_raises; [apply reachable_s_dead|].
  vm_compute. discriminate.
Defined.

(** X3. From a reachable state, a tick on which [KEY_Q] is not held,
    [KEY_R] is not pressed and no apple is eaten (the game is dead, or the
    head does not move onto the apple) returns a state and reads no draw. *)
Theorem update_returns_without_draws fh k s tape :
  reachable fh s →
  btn_Q k = false → btnp_R k = false →
  death s = true ∨ eats k s = false →
  ∃ s', update fh k s tape = Ok s' tape.
Proof.
  intros Hr HQ HR Hcase.
  destruct (reachable_Inv fh s Hr) as (Hne & _ & Hpop & _).
  assert (∃ s1, (if negb (death s) then alive_steps fh k s else ret s) tape
                = Ok s1 tape ∧ is_Some (popped_point s1)) as (s1 & H1 & Hp1).
  { destruct (death s) eqn:Hd; simpl.
    - exists s. split; [done|]. by apply Hpop.
    - destruct Hcase as [?|He]; [done|].
      destruct (snake s) as [|h l] eqn:E; [done|].
      destruct (snoc_of_cons h l) as (l0 & p & El). rewrite El in E.
      assert (head (snake s) = Some h) as Hh by (by rewrite E, <- El).
      assert (move h (direction (update_direction k s)) ≠ apple s) as Hneq.
      { intros Heq. apply (eats_true k s h Hh) in Heq. congruence. }
      destruct (alive_steps_no_eat fh k s tape h l0 p Hh E Hneq)
        as (s3 & H3 & _).
      exists s3. split; [done|].
      apply alive_steps_inv in H3 as (_ & _ & q & _ & _ & _ & -> & _). done. }
  destruct Hp1 as [p Hp1].
  unfold update, bind. rewrite H1, HQ, HR. simpl.
  destruct (btnp_T k); [|by eexists].
  unfold debug_growth. rewrite Hp1. by eexists.
Qed.

Lemma update_returns_without_draws_witness :
  ∃ s', update pyxel_FONT_HEIGHT key_T s_dead [] = Ok s' [].
Proof.
  apply update_returns_without_draws;
    [apply reachable_s_dead|reflexivity|reflexivity|by left].
Defined.

(** ** Reset *)

(** X4. A tick on which [KEY_R] is pressed and that returns, from any
    state, alive or dead, ends in a new game: alive, heading right, the
    apple in the playable rectangle and off the start cell; the body is the
    start cell and the score 0, or, when [KEY_T] is pressed on the same
    tick, the start cell followed by one more cell and the score 1. *)
Theorem reset_tick fh k s tape s' tape' :
  btnp_R k = true →
  update fh k s tape = Ok s' tape' →
  direction s' = RIGHT ∧ death s' = false ∧
  in_playable fh (apple s') ∧ apple s' ≠ START fh ∧
  if btnp_T k then ∃ p, snake s' = [START fh; p] ∧ score s' = 1
  else snake s' = [START fh] ∧ score s' = 0.
Proof.
  intros HR H.
  apply update_inv in H as (_ & s1 & tape1 & s2 & _ & H2 & H3).
  rewrite HR in H2.
  apply reset_inv in H2 as (Hd & Hs & Hde & Hsc & _ & Hap & Hpl).
  destruct (btnp_T k).
  - apply debug_growth_inv in H3 as (_ & p & _ & ->). simpl.
    rewrite Hs, Hsc. split_and!; try done. by exists p.
  - by subst.
Qed.

Lemma reset_tick_witness :
  ∃ p, snake s_stale = [START pyxel_FONT_HEIGHT; p] ∧ score s_stale = 1.
Proof.
  exact (proj2 (proj2 (proj2 (proj2
    (reset_tick pyxel_FONT_HEIGHT key_RT s_moved [6; 4] s_stale []
       eq_refl eq_refl))))).
Defined.

(** ** The shape of the body *)

Lemma reachable_plain_apart fh s : reachable_plain fh s → reachable_apart fh s.
Proof.
  induction 1 as [tape s tape' H|k s tape s' tape' _ IH HT H].
  - by eapply reachable_apart_init.
  - eapply reachable_apart_update; [done| |done]. rewrite HT. apply andb_false_r.
Qed.

Lemma reachable_plain_run fh ks : ∀ s tape s' tape',
  reachable_plain fh s → Forall (λ k, btnp_T k = false) ks →
  run fh ks s tape = Ok s' tape' → reachable_plain fh s'.
Proof.
  induction ks as [|k ks IH]; intros s tape s' tape' Hr HT H; simpl in H.
  - unfold ret in H. by injection H as <- _.
  - inv_bind H. apply Forall_cons in HT as [HTk HT].
    eapply IH; [|done..]. by eapply reachable_plain_update.
Qed.

Lemma reachable_plain_s_dead : reachable_plain pyxel_FONT_HEIGHT s_dead.
Proof.
  apply (reachable_plain_run _ [key_up; key_up; key_up; key_up; key_up]
           s_far_apple [] _ []); [|by repeat constructor|reflexivity].
  by apply (reachable_plain_init _ [30; 30] _ []).
Qed.

Lemma reachable_apart_apple_apart fh s : reachable_apart fh s → apple_apart s.
Proof.
  induction 1 as [tape s tape' H|k s tape s' tape' _ IH HRT H].
  - apply Snake_init_inv in H as (_ & Hs & Hd & _ & _ & Hap & _).
    split; [rewrite Hs; set_solver|congruence].
  - by eapply apple_apart_update.
Qed.

Lemma contains_duplicate_app (l l' : list Point) :
  contains_duplicate l → contains_duplicate (l ++ l').
Proof.
  intros (i & j & c & Hij & Hi & Hj). exists i, j, c.
  split_and!; [done|by apply lookup_app_l_Some..].
Qed.

Lemma in_playable_not_out fh p : in_playable fh p ↔ ¬ out_of_bounds fh p.
Proof. unfold in_playable, out_of_bounds. lia. Qed.

Lemma START_in_playable fh :
  HEIGHT_SCORE fh + 5 < HEIGHT → in_playable fh (START fh).
Proof. unfold in_playable, START, WIDTH, HEIGHT. simpl. lia. Qed.

Lemma reachable_plain_flag fh s :
  reachable_plain fh s → HEIGHT_SCORE fh + 5 < HEIGHT →
  ∃ hd, head (snake s) = Some hd ∧
    (death s = true ↔ out_of_bounds fh hd ∨ contains_duplicate (snake s)) ∧
    (death s = false → in_playable fh hd ∧ NoDup (snake s)).
Proof.
  intros Hr Hstart.
  cut (∃ hd, head (snake s) = Some hd ∧
         (death s = true ↔ out_of_bounds fh hd ∨ contains_duplicate (snake s))).
  { intros (hd & Hh & Hiff). exists hd. split_and!; try done.
    intros Hd. rewrite in_playable_not_out.
    destruct (decide (NoDup (snake s))) as [?|Hnd].
    - split; [|done]. intros ?. assert (death s = true) by tauto. congruence.
    - apply contains_duplicate_NoDup in Hnd.
      assert (death s = true) by tauto. congruence. }
  assert (∃ hd, head [START fh] = Some hd ∧
            (false = true ↔ out_of_bounds fh hd ∨ contains_duplicate [START fh]))
    as Hfresh.
  { exists (START fh). split; [done|]. split; [done|].
    intros [Ho|Hdup].
    - pose proof (START_in_playable fh Hstart) as Hin.
      apply in_playable_not_out in Hin. done.
    - apply contains_duplicate_NoDup in Hdup. destruct Hdup.
      apply NoDup_singleton. }
  induction Hr as [tape s tape' H|k s tape s' tape' Hr IH HT H].
  - apply Snake_init_inv in H as (_ & -> & -> & _). done.
  - pose proof (reachable_apart_apple_apart fh s (reachable_plain_apart fh s Hr))
      as [Hoff _].
    destruct IH as (hd & Hh & Hiff).
    apply update_inv in H as (_ & s1 & tape1 & s2 & H1 & H2 & H3).
    rewrite HT in H3. subst s'.
    destruct (btnp_R k).
    { apply reset_inv in H2 as (_ & -> & -> & _). done. }
    destruct H2 as [-> ->].
    destruct (death s) eqn:Hd.
    { destruct H1 as [-> ->]. exists hd. split; [done|]. by rewrite Hd. }
    apply alive_steps_inv in H1
      as (h & l0 & p & Hh' & Hl & _ & _ & Hdeath & Hcase).
    set (nh := move h (direction s1)) in *. exists nh.
    rewrite Hd in Hdeath.
    assert (NoDup (snake s)) as Hnd.
    { destruct (decide (NoDup (snake s))) as [?|Hn]; [done|].
      apply contains_duplicate_NoDup in Hn.
      assert (false = true) by tauto. done. }
    destruct Hcase as [(_ & Hs1 & _)|(Heq & Hs1 & _)]; rewrite Hs1.
    + split; [done|]. rewrite Hdeath. split; [intros [?|?]; [done|tauto]|tauto].
    + split; [done|]. rewrite Hdeath. split.
      * intros [?|[?|Hdup]]; [done|by left|right].
        apply (contains_duplicate_app _ [p]) in Hdup. by rewrite <- app_comm_cons in Hdup.
      * intros [?|Hdup]; [tauto|]. exfalso.
        apply contains_duplicate_NoDup in Hdup. apply Hdup.
        rewrite <- Hl. constructor; [by rewrite Heq|done].
Qed.

(** X5. With the start cell on the field ([HEIGHT_SCORE + 5 < HEIGHT]) and
    [KEY_T] never pressed, the death flag of a reachable state says exactly
    that the head is out of bounds or that two positions of the body hold
    the same coordinate: a living snake has its head in the playable
    rectangle and pairwise distinct cells. *)
Theorem death_flag_meaning fh s :
  reachable_plain fh s → HEIGHT_SCORE fh + 5 < HEIGHT →
  ∃ hd, head (snake s) = Some hd ∧
    (death s = true ↔ out_of_bounds fh hd ∨ contains_duplicate (snake s)) ∧
    (death s = false → in_playable fh hd ∧ NoDup (snake s)).
Proof. exact (reachable_plain_flag fh s). Qed.

Lemma death_flag_meaning_witness :
  ∃ hd, head (snake s_dead) = Some hd ∧
    (out_of_bounds pyxel_FONT_HEIGHT hd ∨ contains_duplicate (snake s_dead)).
Proof.
  destruct (death_flag_meaning pyxel_FONT_HEIGHT s_dead
              reachable_plain_s_dead)
    as (hd & Hh & Hiff & _); [vm_compute; reflexivity|].
  exists hd. split; [done|]. by apply Hiff.
Defined.

Lemma neighbours_move h d : d ∈ directions → neighbours (move h d) h.
Proof.
  intros [->|[->|[->| ->]]]%directions_cases;
    unfold neighbours, move; simpl; lia.
Qed.

Lemma chain_cons a h l :
  head l = Some h → neighbours a h → chain l → chain (a :: l).
Proof.
  intros Hh Hn Hc [|i] b c Hb Hc'; simpl in *.
  - injection Hb as <-. rewrite <- head_lookup, Hh in Hc'. by injection Hc' as <-.
  - by eapply Hc.
Qed.

Lemma chain_prefix l l' : chain (l ++ l') → chain l.
Proof.
  intros Hc i a b Ha Hb. apply (Hc i); by apply lookup_app_l_Some.
Qed.

Lemma alive_steps_direction fh k s tape s1 tape1 :
  direction s ∈ directions →
  alive_steps fh k s tape = Ok s1 tape1 → direction s1 ∈ directions.
Proof.
  intros Hd H.
  apply alive_steps_inv in H as (_ & _ & _ & _ & _ & -> & _).
  by destruct (update_direction_in k s) as [->|?].
Qed.

(** X6. With [KEY_T] never pressed, the body of a reachable state is a
    path on the grid: each cell is one step, along a row or a column, from
    the cell that follows it. *)
Theorem body_is_chain fh s : reachable_plain fh s → chain (snake s).
Proof.
  induction 1 as [tape s tape' H|k s tape s' tape' Hr IH HT H].
  - apply Snake_init_inv in H as (_ & -> & _). by intros [|[|i]] a b.
  - pose proof (reachable_direction fh s
                  (reachable_apart_reachable fh s
                     (reachable_plain_apart fh s Hr))) as Hdir.
    apply update_inv in H as (_ & s1 & tape1 & s2 & H1 & H2 & H3).
    rewrite HT in H3. subst s'.
    destruct (btnp_R k).
    { apply reset_inv in H2 as (_ & -> & _). by intros [|[|i]] a b. }
    destruct H2 as [-> ->].
    destruct (death s); [by destruct H1 as [-> ->]|].
    pose proof (alive_steps_direction fh k s tape s1 tape1 Hdir H1) as Hdir1.
    apply alive_steps_inv in H1
      as (h & l0 & p & Hh & Hl & _ & _ & _ & Hcase).
    assert (chain (move h (direction s1) :: l0 ++ [p])) as Hc.
    { rewrite <- Hl. apply (chain_cons _ h); [done| |done].
      by apply neighbours_move. }
    destruct Hcase as [(_ & -> & _)|(_ & -> & _)]; [|done].
    by apply (chain_prefix _ [p]).
Qed.

Lemma body_is_chain_witness :
  chain [mkPoint 7 11; mkPoint 6 11; mkPoint 5 11].
Proof.
  apply (body_is_chain pyxel_FONT_HEIGHT
           (mkSnake RIGHT [mkPoint 7 11; mkPoint 6 11; mkPoint 5 11] false 2
              (mkPoint 0 7) (Some (mkPoint 5 11)))).
  apply (reachable_plain_run _ [nokeys; nokeys] s_apple_ahead [7; 4; 0; 0] _ []);
    [|by repeat constructor|reflexivity].
  by apply (reachable_plain_init _ [6; 4] _ []).
Defined.

Lemma reachable_on_field fh s :
  reachable fh s → HEIGHT_SCORE fh + 5 < HEIGHT →
  in_playable fh (apple s) ∧
  (∀ c, c ∈ tail (snake s) → in_playable fh c) ∧
  (death s = false → ∀ c, c ∈ snake s → in_playable fh c).
Proof.
  intros Hr Hstart.
  destruct (reachable_Inv fh s Hr) as (_ & Hap & _). split; [done|]. clear Hap.
  cut (on_field fh s); [by intros (? & _ & ?)|].
  pose proof (START_in_playable fh Hstart) as HS.
  induction Hr as [tape s tape' H|k s tape s' tape' Hr IH H].
  - apply Snake_init_inv in H as (_ & Hs & _ & _ & Hp & _).
    unfold on_field. rewrite Hs, Hp. split_and!; [set_solver|done|set_solver].
  - destruct IH as (Htl & Hpop & Hall).
    apply update_inv in H as (_ & s1 & tape1 & s2 & H1 & H2 & H3).
    assert (on_field fh s1) as (Htl1 & Hpop1 & Hall1).
    { destruct (death s) eqn:Hd.
      { destruct H1 as [-> ->]. split_and!; [done..|]. intros ?. congruence. }
      specialize (Hall eq_refl).
      apply alive_steps_inv in H1
        as (h & l0 & p & Hh & Hl & _ & Hpp & Hdeath & Hcase).
      rewrite Hl in Hall. rewrite Hd in Hdeath.
      assert (∀ c, c ∈ tail (snake s1) → in_playable fh c) as Htl1.
      { destruct Hcase as [(_ & -> & _)|(_ & -> & _)]; simpl; set_solver. }
      split_and!; [done|rewrite Hpp; intros ? [= <-]; set_solver|].
      intros Hd1 c Hc.
      assert (in_playable fh (move h (direction s1))) as Hnh.
      { apply in_playable_not_out. intros Ho.
        assert (death s1 = true) by tauto. congruence. }
      destruct Hcase as [(_ & Hs1 & _)|(_ & Hs1 & _)];
        rewrite Hs1 in Hc, Htl1; simpl in Htl1;
        apply elem_of_cons in Hc as [->|Hc]; auto. }
    assert (on_field fh s2) as (Htl2 & Hpop2 & Hall2).
    { destruct (btnp_R k); [|by destruct H2 as [-> ->]].
      apply reset_inv in H2 as (_ & Hs & _ & _ & Hp & _).
      unfold on_field. rewrite Hs, Hp. split_and!; [set_solver|done|set_solver]. }
    destruct (btnp_T k); [|by subst].
    apply debug_growth_inv in H3 as (_ & p & Hp & ->).
    unfold on_field. simpl. split_and!.
    + intros c Hc. destruct (snake s2) as [|a l]; simpl in *; [set_solver|].
      apply elem_of_app in Hc as [?|Hc]; [auto|].
      apply list_elem_of_singleton in Hc as ->. auto.
    + intros ? [= <-]. auto.
    + intros Hd c Hc. apply elem_of_app in Hc as [?|Hc]; [auto|].
      apply list_elem_of_singleton in Hc as ->. auto.
Qed.

(** X7. With the start cell on the field ([HEIGHT_SCORE + 5 < HEIGHT]), in
    every reachable state the apple and every cell behind the head are in
    the playable rectangle, and so is the head while the game is alive:
    only the head of a dead snake can be outside. *)
Theorem body_on_field fh s :
  reachable fh s → HEIGHT_SCORE fh + 5 < HEIGHT →
  in_playable fh (apple s) ∧
  (∀ c, c ∈ tail (snake s) → in_playable fh c) ∧
  (death s = false → ∀ c, c ∈ snake s → in_playable fh c).
Proof. exact (reachable_on_field fh s). Qed.

Lemma body_on_field_witness : in_playable pyxel_FONT_HEIGHT (mkPoint 6 11).
Proof.
  destruct (body_on_field pyxel_FONT_HEIGHT s_stale) as (_ & Htl & _).
  - apply (reachable_update _ key_RT s_moved [6; 4] _ []); [|reflexivity].
    apply (reachable_update _ nokeys s_far_apple [] _ []);
      [apply reachable_s_far_apple|reflexivity].
  - vm_compute. reflexivity.
  - apply Htl. simpl. set_solver.
Defined.

(** ** No turning back *)

Lemma update_direction_not_opposite k s :
  direction s ∈ directions →
  val (direction (update_direction k s)) ≠ opposite (val (direction s)).
Proof.
  intros H. each_direction s H; each_key k; vm_compute; discriminate.
Qed.

Lemma neck_behind_fresh fh s :
  snake s = [START fh] → death s = false → neck_behind s.
Proof. intros Hs Hd. unfold neck_behind. rewrite Hs, Hd. done. Qed.

Lemma neck_behind_update fh k s tape s' tape' :
  snake s ≠ [] → neck_behind s → btnp_R k && btnp_T k = false →
  update fh k s tape = Ok s' tape' → neck_behind s'.
Proof.
  intros Hne [Hneck Hone] HRT H.
  apply update_inv in H as (_ & s1 & tape1 & s2 & H1 & H2 & H3).
  assert (snake s1 ≠ [] ∧
          (∀ h n rest, snake s1 = h :: n :: rest → h = move n (direction s1)) ∧
          (∀ h p, snake s1 = [h] → popped_point s1 = Some p →
                  h = move p (direction s1))) as (Hne1 & Hneck1 & Hone1).
  { destruct (death s) eqn:Hd; [destruct H1 as [-> ->]; auto|].
    apply alive_steps_inv in H1
      as (h & l0 & p & Hh & Hl & _ & Hpp & _ & Hcase).
    rewrite Hl in Hh. rewrite Hpp.
    destruct Hcase as [(_ & -> & _)|(_ & -> & _)]; split_and!; try done.
    - intros a n rest [= <- ->]. simpl in Hh. congruence.
    - intros a q [= <- ->] [= <-]. simpl in Hh. congruence.
    - intros a n rest [= <- E].
      destruct l0; simpl in *; congruence.
    - intros a q [= _ E]. by destruct l0. }
  destruct (btnp_R k) eqn:HR.
  - simpl in HRT. rewrite HRT in H3. subst s'.
    apply reset_inv in H2 as (_ & Hs & Hd & _).
    by eapply neck_behind_fresh.
  - destruct H2 as [-> ->]. destruct (btnp_T k).
    + apply debug_growth_inv in H3 as (_ & q & Hq & ->).
      split; simpl.
      * intros a n rest E. destruct (snake s1) as [|b [|c l]] eqn:Es; [done| |].
        -- injection E as <- <- _. by apply Hone1.
        -- injection E as <- <- _. by eapply Hneck1.
      * intros _ a q' E. by destruct (snake s1) as [|b [|c l]].
    + subst s'. split; [done|]. intros _. apply Hone1.
Qed.

Lemma reachable_apart_neck fh s : reachable_apart fh s → neck_behind s.
Proof.
  induction 1 as [tape s tape' H|k s tape s' tape' Hr IH HRT H].
  - apply Snake_init_inv in H as (_ & Hs & Hd & _). by eapply neck_behind_fresh.
  - eapply neck_behind_update; [|done..].
    by destruct (reachable_Inv fh s (reachable_apart_reachable fh s Hr)).
Qed.

(** X8. In a state reached through ticks on which [KEY_R] and [KEY_T] are
    not pressed together, the second cell of the body is one step behind the
    head, against the current direction; so whatever keys are held, the next
    head is not that second cell: the snake does not turn back onto its
    neck. *)
Theorem no_turning_back fh k s h n rest :
  reachable_apart fh s → snake s = h :: n :: rest →
  h = move n (direction s) ∧ new_head k s ≠ Some n.
Proof.
  intros Hr Hs.
  destruct (reachable_apart_neck fh s Hr) as [Hneck _].
  pose proof (Hneck h n rest Hs) as Hh. split; [done|].
  pose proof (reachable_direction fh s (reachable_apart_reachable fh s Hr))
    as Hdir.
  pose proof (update_direction_not_opposite k s Hdir) as Hopp.
  unfold new_head. rewrite Hs. simpl. intros [= E]. apply Hopp.
  rewrite Hh in E. unfold move, opposite in *.
  destruct (val (direction (update_direction k s))) as [dx dy],
           (val (direction s)) as [ex ey], n as [nx ny].
  simpl in *. injection E as E1 E2. f_equal; lia.
Qed.

Lemma no_turning_back_witness :
  new_head (mkKeys false false true false false false false)
    (mkSnake RIGHT [mkPoint 7 11; mkPoint 6 11; mkPoint 5 11] false 2
       (mkPoint 0 7) (Some (mkPoint 5 11)))
  ≠ Some (mkPoint 6 11).
Proof.
  eapply (no_turning_back pyxel_FONT_HEIGHT); [|reflexivity].
  apply (reachable_plain_apart pyxel_FONT_HEIGHT).
  apply (reachable_plain_run _ [nokeys; nokeys] s_apple_ahead [7; 4; 0; 0] _ []);
    [|by repeat constructor|reflexivity].
  by apply (reachable_plain_init _ [6; 4] _ []).
Defined.

(** ** A full board *)

Lemma apple_loop_full fh (px : gset Point) (n : nat) :
  HEIGHT_SCORE fh + 1 <= HEIGHT - 1 →
  (∀ q, in_playable fh q → q ∈ px) →
  ∀ tape a, (length tape <= n)%nat → a ∈ px →
            apple_loop fh px a tape = Diverge.
Proof.
  intros Hrange Hfull. pose proof Hrange as Hr. apply Z.ltb_ge in Hr.
  induction n as [|n IH]; intros tape a Hn Ha.
  - destruct tape; [|simpl in Hn; lia]. simpl. by rewrite decide_True.
  - destruct tape as [|rx [|ry tape2]]; simpl; rewrite decide_True by done;
      [done|by rewrite Hr|]. rewrite Hr.
    apply IH; [simpl in Hn; lia|]. apply Hfull.
    pose proof (pick_range 0 (WIDTH - 1) rx).
    pose proof (pick_range (HEIGHT_SCORE fh + 1) (HEIGHT - 1) ry).
    unfold in_playable, WIDTH, HEIGHT in *. simpl. lia.
Qed.

(** X9. When the body covers every cell of the playable rectangle,
    [generate_apple] does not return, whatever the draws: each sample falls
    on the snake and the loop goes on. *)
Theorem full_board_never_placed fh s tape :
  snake s ≠ [] → HEIGHT_SCORE fh + 1 <= HEIGHT - 1 →
  (∀ q, in_playable fh q → q ∈ snake s) →
  generate_apple fh s tape = Diverge.
Proof.
  intros Hne Hrange Hfull. unfold generate_apple.
  destruct (snake s) as [|h l] eqn:E; [done|]. unfold bind.
  rewrite (apple_loop_full fh _ (length tape)); try done.
  - intros q Hq. apply elem_of_list_to_set. by apply Hfull.
  - set_solver.
Qed.

Lemma full_board_never_placed_witness :
  generate_apple pyxel_FONT_HEIGHT s_full [3; 1; 4; 1; 5; 9; 2; 6] = Diverge.
Proof.
  apply full_board_never_placed.
  - vm_compute. discriminate.
  - vm_compute. discriminate.
  - intros [qx qy] [Hx Hy]. unfold HEIGHT_SCORE, pyxel_FONT_HEIGHT, WIDTH, HEIGHT in *.
    simpl in *. apply list_elem_of_bind. exists qx. split.
    + apply list_elem_of_bind. exists qy. split; [set_solver|].
      apply elem_of_seqZ. lia.
    + apply elem_of_seqZ. lia.
Defined.

(** * Drawing *)

(** ** Centred text *)

(** X11. [center_text] puts the text in the middle of the page: the margin
    left of the text and the margin right of it differ by one pixel at
    most, the right one being the larger. A text that fits starts on the
    page; a text wider than the page starts left of it, at a negative
    abscissa. *)
Theorem center_text_margins t page_width char_width :
  let text_width := Z.of_nat (String.length t) * char_width in
  let left := center_text t page_width char_width in
  let right := page_width - (left + text_width) in
  left <= right <= left + 1 ∧
  (text_width <= page_width → 0 <= left) ∧
  (page_width < text_width → left < 0).
Proof.
  unfold center_text. simpl.
  set (w := Z.of_nat (String.length t) * char_width).
  pose proof (Z.div_mod (page_width - w) 2 ltac:(lia)) as E.
  pose proof (Z.mod_pos_bound (page_width - w) 2 ltac:(lia)) as B.
  split_and!; intros; lia.
Qed.

Lemma center_text_margins_witness :
  0 <= center_text "GAME OVER" WIDTH 4.
Proof.
  apply (center_text_margins "GAME OVER" WIDTH 4). vm_compute. discriminate.
Defined.

(** ** The checkerboard *)

Lemma draw_background_elem col c :
  c ∈ draw_background col ↔
  ∃ cx cy, 0 <= cx <= WIDTH ∧ 0 <= cy <= HEIGHT ∧
    c = rect cx cy 1 1 (if decide ((cx - cy) `mod` 2 = 0)
                        then background1_color col
                        else background2_color col).
Proof.
  unfold draw_background. rewrite list_elem_of_bind. split.
  - intros (cx & Hc & Hx). apply list_elem_of_bind in Hc as (cy & Hc & Hy).
    apply list_elem_of_singleton in Hc. apply elem_of_seqZ in Hx, Hy.
    exists cx, cy. split_and!; [lia..|done].
  - intros (cx & cy & Hx & Hy & ->). exists cx. split.
    + apply list_elem_of_bind. exists cy. split; [set_solver|].
      apply elem_of_seqZ. lia.
    + apply elem_of_seqZ. lia.
Qed.

(** X12. [draw_background] paints every cell of columns 0 to [WIDTH] and
    rows 0 to [HEIGHT], both ends included (one column and one row more than
    the [WIDTH] by [HEIGHT] screen), as a one-pixel rectangle of one colour
    only, one of the two background colours; when the two colours differ,
    the cell to its right and the cell under it are not painted with the
    colour of the cell itself. *)
Theorem draw_background_checkerboard col cx cy :
  0 <= cx <= WIDTH → 0 <= cy <= HEIGHT →
  ∃ k,
    (∀ k', rect cx cy 1 1 k' ∈ draw_background col ↔ k' = k) ∧
    (k = background1_color col ∨ k = background2_color col) ∧
    (background1_color col ≠ background2_color col →
     (rect (cx + 1) cy 1 1 k ∉ draw_background col) ∧
     (rect cx (cy + 1) 1 1 k ∉ draw_background col)).
Proof.
  intros Hx Hy.
  exists (if decide ((cx - cy) `mod` 2 = 0)
          then background1_color col else background2_color col).
  split_and!.
  - intros k'. rewrite draw_background_elem. split.
    + by intros (? & ? & _ & _ & [= <- <- ->]).
    + intros ->. by exists cx, cy.
  - case_decide; tauto.
  - intros Hne.
    pose proof (Z.mod_pos_bound (cx - cy) 2 ltac:(lia)).
    pose proof (Z.div_mod (cx - cy) 2 ltac:(lia)).
    pose proof (Z.mod_pos_bound (cx + 1 - cy) 2 ltac:(lia)).
    pose proof (Z.div_mod (cx + 1 - cy) 2 ltac:(lia)).
    pose proof (Z.mod_pos_bound (cx - (cy + 1)) 2 ltac:(lia)).
    pose proof (Z.div_mod (cx - (cy + 1)) 2 ltac:(lia)).
    split; rewrite draw_background_elem;
      intros (? & ? & _ & _ & [= <- <- E]);
      repeat case_decide; try congruence; lia.
Qed.

Lemma draw_background_checkerboard_witness :
  ∃ k, rect 40 50 1 1 k ∈ draw_background Colors_init ∧ (k = 3 ∨ k = 4).
Proof.
  destruct (draw_background_checkerboard Colors_init 40 50) as (k & Hk & Hc & _).
  - vm_compute. split; discriminate.
  - vm_compute. split; discriminate.
  - exists k. split; [by apply Hk|exact Hc].
Defined.

(** ** What is seen of a living game *)

Lemma top_app fh fw l1 l2 p :
  top fh fw (l1 ++ l2) p
  = match top fh fw l2 p with
    | Some c => Some c
    | None => top fh fw l1 p
    end.
Proof. unfold top. by rewrite filter_app, last_app. Qed.

Lemma top_cons fh fw c l p :
  top fh fw (c :: l) p
  = match top fh fw l p with
    | Some c' => Some c'
    | None => if covers fh fw c p then Some c else None
    end.
Proof.
  change (c :: l) with ([c] ++ l). rewrite top_app.
  destruct (top fh fw l p); [done|].
  unfold top. rewrite filter_cons, filter_nil.
  destruct (covers fh fw c p); by simplify_option_eq.
Qed.

Lemma covers_cell fh fw q k p :
  covers fh fw (rect (x q) (y q) 1 1 k) p = true ↔ p = q.
Proof.
  simpl. rewrite bool_decide_eq_true. destruct p, q. simpl. split.
  - intros [? ?]. f_equal; lia.
  - intros [= -> ->]. lia.
Qed.

Lemma top_cells_None fh fw (f : nat → Point → draw_cmd) (l : list Point) c :
  (∀ i p q, covers fh fw (f i p) q = true ↔ q = p) →
  c ∉ l → top fh fw (imap f l) c = None.
Proof.
  revert f. induction l as [|a l IH]; intros f Hf Hc; [done|].
  rewrite imap_cons, top_cons.
  rewrite (IH (f ∘ S)); [|intros; apply Hf|set_solver].
  destruct (covers _ _ _ _) eqn:E; [|done].
  apply Hf in E. set_solver.
Qed.

Lemma top_cells fh fw (f : nat → Point → draw_cmd) (l : list Point) i c :
  (∀ i p q, covers fh fw (f i p) q = true ↔ q = p) →
  NoDup l → l !! i = Some c →
  top fh fw (imap f l) c = Some (f i c).
Proof.
  revert f i. induction l as [|a l IH]; intros f i Hf Hnd Hi; [done|].
  apply NoDup_cons in Hnd as [Ha Hnd].
  rewrite imap_cons, top_cons. destruct i as [|i]; simpl in Hi.
  - injection Hi as ->.
    rewrite (top_cells_None fh fw (f ∘ S)); [|intros; apply Hf|done].
    by rewrite (proj2 (Hf 0%nat c c)).
  - rewrite (IH (f ∘ S) i); [done|intros; apply Hf|done..].
Qed.

Lemma top_score_None fh fw col s c :
  in_playable fh c → top fh fw (draw_score fh col s) c = None.
Proof.
  intros [_ Hy]. unfold top, draw_score, HEIGHT_SCORE in *.
  rewrite !filter_cons, filter_nil. simpl.
  rewrite !bool_decide_eq_false_2 by lia. done.
Qed.

(** X13. In a reachable state that is alive, with the start cell on the
    field and [KEY_T] never pressed, the last call of [draw] that paints the
    cell of the apple is the rectangle of the apple, and the last call that
    paints a cell of the body is the rectangle of that cell, in the colour
    of the head for the first cell and of the body for the others: the
    score bar, its text, the apple and the rest of the body hide none of
    them. *)
Theorem what_is_seen fh fw col s :
  reachable_plain fh s → HEIGHT_SCORE fh + 5 < HEIGHT → death s = false →
  top fh fw (draw fh fw col s) (apple s)
  = Some (rect (x (apple s)) (y (apple s)) 1 1 (apple_color col)) ∧
  ∀ i c, snake s !! i = Some c →
    top fh fw (draw fh fw col s) c
    = Some (rect (x c) (y c) 1 1
              (if decide (i = 0%nat) then head_color col else body_color col)).
Proof.
  intros Hr Hstart Hd.
  pose proof (reachable_plain_apart fh s Hr) as Hra.
  destruct (reachable_apart_apple_apart fh s Hra) as [Hoff _].
  destruct (reachable_plain_flag fh s Hr Hstart) as (hd & _ & _ & Hnd).
  destruct (Hnd Hd) as [_ Hnodup].
  destruct (reachable_on_field fh s (reachable_apart_reachable fh s Hra) Hstart)
    as (_ & _ & Hfield).
  specialize (Hfield Hd).
  unfold draw. rewrite Hd. cbn [negb]. split.
  - assert (top fh fw [rect (x (apple s)) (y (apple s)) 1 1 (apple_color col)]
              (apple s)
            = Some (rect (x (apple s)) (y (apple s)) 1 1 (apple_color col)))
      as Hap.
    { rewrite top_cons. cbn [top filter list_filter last].
      by rewrite (proj2 (covers_cell fh fw (apple s) (apple_color col) (apple s))). }
    by rewrite !top_app, Hap.
  - intros i c Hi.
    assert (c ∈ snake s) as Hc by (by eapply list_elem_of_lookup_2).
    assert (top fh fw [rect (x (apple s)) (y (apple s)) 1 1 (apple_color col)] c
            = None) as Hap.
    { rewrite top_cons. cbn [top filter list_filter last].
      destruct (covers _ _ _ _) eqn:E; [|done].
      apply covers_cell in E. congruence. }
    rewrite !top_app, Hap, top_score_None by auto.
    unfold draw_snake.
    rewrite (top_cells fh fw _ (snake s) i c); [done| |done..].
    intros. apply covers_cell.
Qed.

Lemma what_is_seen_witness :
  top 6 4 (draw 6 4 Colors_init s_under_bar) (mkPoint 5 7)
  = Some (rect 5 7 1 1 0).
Proof.
  destruct (what_is_seen pyxel_FONT_HEIGHT 4 Colors_init s_under_bar)
    as [_ H].
  - apply (reachable_plain_run _ [key_up; key_up; key_up; key_up]
             s_far_apple [] _ []); [|by repeat constructor|reflexivity].
    by apply (reachable_plain_init _ [30; 30] _ []).
  - vm_compute. reflexivity.
  - reflexivity.
  - exact (H 0%nat (mkPoint 5 7) eq_refl).
Defined.

(** ** The death screen *)

Lemma format_04_length n :
  0 <= n < 10000 → String.length (format_04 n) = 4%nat.
Proof.
  intros Hn.
  assert (forallb (λ m, Nat.eqb (String.length (format_04 m)) 4)
            (seqZ 0 10000) = true) as Hall by (vm_compute; reflexivity).
  rewrite forallb_forall in Hall.
  apply Nat.eqb_eq, Hall, list_elem_of_In, elem_of_seqZ. lia.
Qed.

(** X14. With pyxel's font (4 by 6) and a score from 0 to 9999, every text
    of the death screen lies on the 40 by 50 screen, its shadow one pixel to
    the right included, and the score, four characters long, is the second
    line, at abscissa 12 and ordinate 13. *)
Theorem death_screen_fits col s :
  0 <= score s < 10000 →
  (∀ px py t k, text px py t k ∈ draw_death 6 4 col s →
     0 <= px ∧ px + Z.of_nat (String.length t) * 4 <= WIDTH ∧
     0 <= py ∧ py + 6 <= HEIGHT) ∧
  String.length (format_04 (score s)) = 4%nat ∧
  draw_death 6 4 col s !! 3%nat
  = Some (text 13 13 (format_04 (score s)) (death_text_color_fade col)) ∧
  draw_death 6 4 col s !! 4%nat
  = Some (text 12 13 (format_04 (score s)) (death_text_color col)).
Proof.
  intros Hsc. pose proof (format_04_length (score s) Hsc) as Hlen.
  unfold draw_death, center_text.
  set (sc := format_04 (score s)) in *.
  cbn [take drop TEXT_DEATH app imap mjoin list_join compose].
  rewrite Hlen. split_and!; [|done|reflexivity..].
  intros px py t k Hin.
  repeat (apply elem_of_cons in Hin as [Hin|Hin];
          [try discriminate;
           injection Hin as -> -> -> ->; rewrite ?Hlen; vm_compute;
           repeat split; discriminate|]).
  by apply elem_of_nil in Hin.
Qed.

Lemma death_screen_fits_witness :
  draw_death 6 4 Colors_init s_dead !! 4%nat = Some (text 12 13 "0000" 7).
Proof.
  destruct (death_screen_fits Colors_init s_dead) as (_ & _ & _ & H).
  - vm_compute. split; [discriminate|reflexivity].
  - exact H.
Defined.

(** * Sound *)

Lemma start_music_lookup (a : channels) ch :
  ch ∈ [1; 2; 3] → start_music a !! ch = Some (ch + 1, true).
Proof.
  intros Hch. unfold start_music, play. cbn [imap foldl compose Z.of_nat].
  assert (ch = 1 ∨ ch = 2 ∨ ch = 3) as [->|[->| ->]] by set_solver;
    by simplify_map_eq.
Qed.

Lemma stop_music_lookup (a : channels) ch :
  ch ∈ [1; 2; 3] → stop_music a !! ch = None.
Proof.
  intros Hch. unfold stop_music, stop.
  change (seqZ 1 3) with [1; 2; 3]. cbn [foldl].
  assert (ch = 1 ∨ ch = 2 ∨ ch = 3) as [->|[->| ->]] by set_solver;
    by simplify_map_eq.
Qed.

Lemma stop_music_other (a : channels) ch :
  ch ∉ [1; 2; 3] → stop_music a !! ch = a !! ch.
Proof.
  intros Hch. unfold stop_music, stop.
  change (seqZ 1 3) with [1; 2; 3]. cbn [foldl].
  rewrite !lookup_delete_ne; [done|set_solver..].
Qed.

Lemma sfx_lookup (a : channels) snd ch :
  ch ≠ 0 → play 0 snd false a !! ch = a !! ch.
Proof. intros Hch. unfold play. by rewrite lookup_insert_ne. Qed.

(** The game with its sound is the game: leaving the sound out of
    [update_snd] gives [update]. *)
Lemma check_death_snd_silent fh s a tape :
  silent (check_death_snd fh (s, a) tape) = check_death fh s tape.
Proof.
  unfold check_death_snd, check_death. simpl.
  destruct (snake s); [done|].
  destruct (_ || _ || _ || _); [done|]. by destruct (negb _).
Qed.

Lemma check_apple_snd_silent fh s a tape :
  silent (check_apple_snd fh (s, a) tape) = check_apple fh s tape.
Proof.
  unfold check_apple_snd, check_apple. simpl.
  destruct (snake s); [done|]. case_bool_decide; [|done].
  destruct (popped_point s); [|done].
  unfold bind. by destruct (generate_apple _ _ _).
Qed.

Lemma alive_steps_snd_silent fh k s a tape :
  silent (alive_steps_snd fh k (s, a) tape) = alive_steps fh k s tape.
Proof.
  unfold alive_steps_snd, alive_steps, bind. simpl.
  destruct (update_snake _ _) as [s1 t1| | |]; [|done..].
  rewrite <- (check_death_snd_silent fh s1 a t1).
  destruct (check_death_snd fh (s1, a) t1) as [[s2 a2] t2| | |]; [|done..].
  apply check_apple_snd_silent.
Qed.

Lemma update_snd_silent fh k s a tape :
  silent (update_snd fh k (s, a) tape) = update fh k s tape.
Proof.
  unfold update_snd, update, bind. simpl.
  assert (silent ((if negb (death s) then alive_steps_snd fh k (s, a)
                   else ret (s, a)) tape)
          = (if negb (death s) then alive_steps fh k s else ret s) tape) as E.
  { destruct (death s); [done|]. apply alive_steps_snd_silent. }
  destruct ((if negb (death s) then alive_steps_snd fh k (s, a)
             else ret (s, a)) tape) as [[s1 a1] t1| | |];
    rewrite <- E; [|done..]. simpl.
  destruct (btn_Q k); [done|]. simpl.
  destruct (btnp_R k).
  - unfold reset_snd, bind. simpl.
    destruct (reset fh s1 t1) as [s2 t2| | |]; [|done..]. simpl.
    destruct (btnp_T k); [|done]. by destruct (debug_growth s2 t2).
  - simpl. destruct (btnp_T k); [|done]. by destruct (debug_growth s1 t1).
Qed.

Lemma reachable_snd_reachable fh g : reachable_snd fh g → reachable fh g.1.
Proof.
  induction 1 as [a0 tape g tape' H|k [s a] tape g' tape' _ IH H].
  - apply (reachable_init fh tape _ tape').
    unfold Snake_init_snd, reset_snd in H. inv_bind H.
    unfold ret in H. injection H as <- <-. exact Hstep.
  - apply (reachable_update fh k s tape _ tape'); [done|].
    by rewrite <- (update_snd_silent fh k s a tape), H.
Qed.

Lemma check_death_snd_inv fh s a tape g2 tape2 :
  death s = false →
  check_death_snd fh (s, a) tape = Ok g2 tape2 →
  (g2.2 = a ∧ death g2.1 = false)
  ∨ (g2.2 = stop_music (sfx_death a) ∧ death g2.1 = true).
Proof.
  intros Hd. unfold check_death_snd, death_event_snd, ret. simpl.
  destruct (snake s); [done|].
  destruct (_ || _ || _ || _); [intros [= <- _]; by right|].
  destruct (negb _); intros [= <- _]; [by right|by left].
Qed.

Lemma check_apple_snd_inv fh s a tape g3 tape3 :
  check_apple_snd fh (s, a) tape = Ok g3 tape3 →
  death g3.1 = death s ∧ (g3.2 = a ∨ g3.2 = sfx_apple a).
Proof.
  unfold check_apple_snd. simpl. destruct (snake s); [done|].
  case_bool_decide as Heq; [|intros [= <- _]; auto].
  destruct (popped_point s); [|done].
  intros H. inv_bind H. unfold ret in H. injection H as <- _. simpl.
  apply generate_apple_inv in Hstep as (-> & _). auto.
Qed.

Lemma music_follows_channels s a a' :
  (∀ ch, ch ∈ [1; 2; 3] → a' !! ch = a !! ch) →
  music_follows (s, a) → music_follows (s, a').
Proof. intros Ha Hm ch Hch. simpl. rewrite Ha by done. by apply Hm. Qed.

Lemma music_follows_alive_steps fh k s a tape g tape' :
  death s = false → music_follows (s, a) →
  alive_steps_snd fh k (s, a) tape = Ok g tape' → music_follows g.
Proof.
  intros Hd Hm H. unfold alive_steps_snd in H. simpl in H.
  apply bind_Ok in H as (sa & ta & Hus & H).
  apply bind_Ok in H as ([sb ab] & tb & Hcd & Hca).
  apply update_snake_inv in Hus as (h & l0 & p & _ & _ & _ & Es1).
  destruct (update_direction_fields k s) as (_ & Hde & _).
  assert (death sa = false) as Hda by (rewrite Es1; simpl; congruence).
  destruct g as [sc ac].
  apply check_apple_snd_inv in Hca as [Hdc Hac]. simpl in Hdc, Hac.
  assert (∀ ch, ch ∈ [1; 2; 3] → ac !! ch = ab !! ch) as Hsame.
  { intros ch Hch. destruct Hac as [->| ->]; [done|].
    unfold sfx_apple. apply sfx_lookup. set_solver. }
  intros ch Hch. simpl. rewrite Hdc, Hsame by done.
  apply check_death_snd_inv in Hcd as [[Ea Hdb]|[Ea Hdb]]; [| |done];
    simpl in Ea, Hdb; subst ab; rewrite Hdb.
  - specialize (Hm ch Hch). simpl in Hm. by rewrite Hd in Hm.
  - by apply stop_music_lookup.
Qed.

Lemma music_follows_update fh k g tape g' tape' :
  music_follows g → update_snd fh k g tape = Ok g' tape' → music_follows g'.
Proof.
  destruct g as [s a]. intros Hm H. unfold update_snd in H. simpl in H.
  apply bind_Ok in H as (g1 & t1 & H1 & H).
  apply bind_Ok in H as (u & t2 & _ & H).
  apply bind_Ok in H as (g2 & t3 & H2 & H).
  assert (music_follows g1) as Hm1.
  { destruct (death s) eqn:Hd; simpl in H1.
    - unfold ret in H1. by injection H1 as <- _.
    - by eapply music_follows_alive_steps. }
  assert (music_follows g2) as Hm2.
  { destruct (btnp_R k); [|unfold ret in H2; by injection H2 as <- _].
    unfold reset_snd in H2. apply bind_Ok in H2 as (sr & tr & Hr & H2).
    unfold ret in H2. injection H2 as <- _.
    apply reset_inv in Hr as (_ & _ & Hd2 & _).
    intros ch Hch. simpl. rewrite Hd2. by apply start_music_lookup. }
  destruct (btnp_T k); [|unfold ret in H; by injection H as <- _].
  apply bind_Ok in H as (st & tt' & Ht & H).
  unfold ret in H. injection H as <- _.
  apply debug_growth_inv in Ht as (_ & p & _ & ->).
  intros ch Hch. simpl. by apply Hm2.
Qed.

(** X15. In every reachable state of the game with its sound, whatever the
    channels were at the start, each of the channels 1, 2 and 3 loops its
    track (the sounds 2, 3 and 4) when the game is alive and plays nothing
    when the game is dead: [death_event] stops the music, [reset] starts it
    again, and the sound effects use channel 0 only. *)
Theorem music_while_alive fh g ch :
  reachable_snd fh g → ch ∈ [1; 2; 3] →
  g.2 !! ch = if death g.1 then None else Some (ch + 1, true).
Proof.
  intros Hr. revert ch. change (music_follows g).
  induction Hr as [a0 tape g tape' H|k g tape g' tape' _ IH H].
  - unfold Snake_init_snd, reset_snd in H. inv_bind H.
    unfold ret in H. injection H as <- _.
    apply reset_inv in Hstep as (_ & _ & Hd & _).
    intros ch Hch. simpl. rewrite Hd. by apply start_music_lookup.
  - by eapply music_follows_update.
Qed.

Lemma music_while_alive_witness :
  (stop_music (sfx_death (start_music ∅)) : channels) !! 2 = None.
Proof.
  apply (music_while_alive pyxel_FONT_HEIGHT
           (s_dead, stop_music (sfx_death (start_music ∅))) 2);
    [|set_solver].
  apply (reachable_snd_update _ key_up
           (s_under_bar, start_music ∅) [] _ []); [|reflexivity].
  assert (∀ s s', update_snd pyxel_FONT_HEIGHT key_up (s, start_music ∅) []
                  = Ok (s', start_music ∅) [] →
                  reachable_snd pyxel_FONT_HEIGHT (s, start_music ∅) →
                  reachable_snd pyxel_FONT_HEIGHT (s', start_music ∅)) as Hup.
  { intros s s' H Hr. by eapply reachable_snd_update. }
  apply (Hup (mkSnake UP [mkPoint 5 8] false 0 (mkPoint 30 37)
                (Some (mkPoint 5 9)))); [reflexivity|].
  apply (Hup (mkSnake UP [mkPoint 5 9] false 0 (mkPoint 30 37)
                (Some (mkPoint 5 10)))); [reflexivity|].
  apply (Hup (mkSnake UP [mkPoint 5 10] false 0 (mkPoint 30 37)
                (Some (mkPoint 5 11)))); [reflexivity|].
  apply (Hup s_far_apple); [reflexivity|].
  by apply (reachable_snd_init _ ∅ [30; 30] _ []).
Defined.
